(** * raiden/transfer/architecture.py: balance proofs and the state manager

    A shallow embedding of the value objects [BalanceProofUnsignedState] and
    [BalanceProofSignedState] and of [StateManager.dispatch], with the
    properties the specification states about them.

    Python exceptions are the [Raise] branch of [result].  State instances
    are mutable objects: they live in a store and are denoted by references,
    so that the copy taken by [dispatch] and the in-place updates of a reducer
    can be told apart. *)

From Stdlib Require Import ZArith.
From Stdlib.Strings Require Import Byte.
From stdpp Require Import base gmap strings list.

Local Open Scope string_scope.
Local Open Scope Z_scope.

Set Warnings "-register-all".

(** ** Exceptions and fallible computations *)

Inductive exn : Type :=
| ValueError (msg : string)
| TypeError (msg : string)
| AssertionError (msg : string)
| Exception (msg : string).

Inductive result (A : Type) : Type :=
| Ok (a : A)
| Raise (e : exn).
Arguments Ok {A} a.
Arguments Raise {A} e.

#[global] Instance result_ret : MRet result := @Ok.
#[global] Instance result_bind : MBind result :=
  λ A B f m, match m with Ok a => f a | Raise e => Raise e end.
#[global] Instance result_fmap : FMap result :=
  λ A B f m, match m with Ok a => Ok (f a) | Raise e => Raise e end.

Definition is_error {A} (r : result A) : Prop := ∃ e, r = Raise e.

(** A validation error is raised as a ValueError. *)
Definition is_ValueError {A} (r : result A) : Prop :=
  ∃ msg, r = Raise (ValueError msg).

(** [if cond: raise e], where evaluating [cond] may itself raise. *)
Definition raise_if (cond : result bool) (e : exn) : result unit :=
  b ← cond; if (b : bool) then Raise e else Ok tt.

(** ** Plain Python data *)

Definition bytes : Type := list byte.

Inductive pyval : Type :=
| PyNone
| PyInt (z : Z)
| PyBytes (b : bytes)
| PyStr (s : string).

Inductive pytype : Type := T_NoneType | T_int | T_bytes | T_str.

Definition isinstance (value : pyval) (expected : pytype) : bool :=
  match value, expected with
  | PyNone, T_NoneType | PyInt _, T_int | PyBytes _, T_bytes | PyStr _, T_str => true
  | _, _ => false
  end.

(** Modelled from the spec: [raiden.utils.typing.typecheck] is imported, not
    defined, by architecture.py.  A value that is not an instance of the
    expected type is a validation error. *)
Definition typecheck (value : pyval) (expected : pytype) : result unit :=
  if isinstance value expected then Ok tt
  else Raise (ValueError "Expected a value of another type").

(** Modelled from the spec: the aliases of [raiden.utils.typing] used by the
    balance proofs.  Amounts are integers; the locksroot, the signature and
    the address are byte strings. *)
Definition T_TokenAmount : pytype := T_int.
Definition T_LockedAmount : pytype := T_int.
Definition T_Locksroot : pytype := T_bytes.
Definition T_Signature : pytype := T_bytes.
Definition T_Address : pytype := T_bytes.

(** Modelled from the spec: the bounds of [raiden.constants], 2^64 - 1 and
    2^256 - 1. *)
Definition UINT64_MAX : Z := 2 ^ 64 - 1.
Definition UINT256_MAX : Z := 2 ^ 256 - 1.

(** Integer comparison and [len].  Applied to anything else Python raises a
    TypeError; in the code below the operands have been type-checked before. *)
Definition py_le (a b : pyval) : result bool :=
  match a, b with
  | PyInt x, PyInt y => Ok (x <=? y)
  | _, _ => Raise (TypeError "'<=' not supported")
  end.

Definition py_lt (a b : pyval) : result bool :=
  match a, b with
  | PyInt x, PyInt y => Ok (x <? y)
  | _, _ => Raise (TypeError "'<' not supported")
  end.

Definition py_gt (a b : pyval) : result bool :=
  match a, b with
  | PyInt x, PyInt y => Ok (y <? x)
  | _, _ => Raise (TypeError "'>' not supported")
  end.

Definition py_len (a : pyval) : result Z :=
  match a with
  | PyBytes b => Ok (Z.of_nat (length b))
  | PyStr s => Ok (Z.of_nat (String.length s))
  | _ => Raise (TypeError "object has no len()")
  end.

Definition py_len_ne (a : pyval) (n : Z) : result bool :=
  negb ∘ (λ k, k =? n) <$> py_len a.

(** ** Balance proofs *)

Module BalanceProof.
Section WithCollaborators.

(** The collaborators of the balance proofs, defined outside
    architecture.py: the canonical identifier with its [validate] method and
    the canonical hash function, each of which returns or raises, and the
    default of the [balance_hash] field. *)
Variable CanonicalIdentifier : Type.
Variable validate : CanonicalIdentifier → result unit.
Variable hash_balance_data : pyval → pyval → pyval → result pyval.
Variable EMPTY_BALANCE_HASH : pyval.

Record BalanceProofUnsignedState : Type := mkUnsigned {
  u_nonce : pyval;
  u_transferred_amount : pyval;
  u_locked_amount : pyval;
  u_locksroot : pyval;
  u_canonical_identifier : CanonicalIdentifier;
  u_balance_hash : pyval
}.

Definition u_set_balance_hash (self : BalanceProofUnsignedState) (h : pyval)
  : BalanceProofUnsignedState :=
  mkUnsigned (u_nonce self) (u_transferred_amount self) (u_locked_amount self)
             (u_locksroot self) (u_canonical_identifier self) h.

(** [BalanceProofUnsignedState.__post_init__]: returns [self] with the
    recomputed [balance_hash], or raises. *)
Definition BalanceProofUnsignedState_post_init (self : BalanceProofUnsignedState)
  : result BalanceProofUnsignedState :=
  typecheck (u_nonce self) T_int ;;
  typecheck (u_transferred_amount self) T_TokenAmount ;;
  typecheck (u_locked_amount self) T_TokenAmount ;;
  typecheck (u_locksroot self) T_Locksroot ;;
  raise_if (py_le (u_nonce self) (PyInt 0))
           (ValueError "nonce cannot be zero or negative") ;;
  raise_if (py_gt (u_nonce self) (PyInt UINT64_MAX))
           (ValueError "nonce is too large") ;;
  raise_if (py_lt (u_transferred_amount self) (PyInt 0))
           (ValueError "transferred_amount cannot be negative") ;;
  raise_if (py_gt (u_transferred_amount self) (PyInt UINT256_MAX))
           (ValueError "transferred_amount is too large") ;;
  raise_if (py_len_ne (u_locksroot self) 32)
           (ValueError "locksroot must have length 32") ;;
  validate (u_canonical_identifier self) ;;
  balance_hash ← hash_balance_data (u_transferred_amount self)
                   (u_locked_amount self) (u_locksroot self);
  Ok (u_set_balance_hash self balance_hash).

(** The dataclass constructor: the generated [__init__] stores the
    arguments, [balance_hash] defaulting to [EMPTY_BALANCE_HASH], and then
    runs [__post_init__]. *)
Definition new_BalanceProofUnsignedState
    (nonce transferred_amount locked_amount locksroot : pyval)
    (canonical_identifier : CanonicalIdentifier)
    (balance_hash : option pyval) : result BalanceProofUnsignedState :=
  BalanceProofUnsignedState_post_init
    (mkUnsigned nonce transferred_amount locked_amount locksroot
                canonical_identifier (default EMPTY_BALANCE_HASH balance_hash)).

Record BalanceProofSignedState : Type := mkSigned {
  s_nonce : pyval;
  s_transferred_amount : pyval;
  s_locked_amount : pyval;
  s_locksroot : pyval;
  s_message_hash : pyval;
  s_signature : pyval;
  s_sender : pyval;
  s_canonical_identifier : CanonicalIdentifier;
  s_balance_hash : pyval
}.

Definition s_set_balance_hash (self : BalanceProofSignedState) (h : pyval)
  : BalanceProofSignedState :=
  mkSigned (s_nonce self) (s_transferred_amount self) (s_locked_amount self)
           (s_locksroot self) (s_message_hash self) (s_signature self)
           (s_sender self) (s_canonical_identifier self) h.

(** [BalanceProofSignedState.__post_init__]. *)
Definition BalanceProofSignedState_post_init (self : BalanceProofSignedState)
  : result BalanceProofSignedState :=
  typecheck (s_nonce self) T_int ;;
  typecheck (s_transferred_amount self) T_TokenAmount ;;
  typecheck (s_locked_amount self) T_LockedAmount ;;
  typecheck (s_locksroot self) T_Locksroot ;;
  typecheck (s_message_hash self) T_bytes ;;
  typecheck (s_signature self) T_Signature ;;
  typecheck (s_sender self) T_Address ;;
  raise_if (py_le (s_nonce self) (PyInt 0))
           (ValueError "nonce cannot be zero or negative") ;;
  raise_if (py_gt (s_nonce self) (PyInt UINT64_MAX))
           (ValueError "nonce is too large") ;;
  raise_if (py_lt (s_transferred_amount self) (PyInt 0))
           (ValueError "transferred_amount cannot be negative") ;;
  raise_if (py_gt (s_transferred_amount self) (PyInt UINT256_MAX))
           (ValueError "transferred_amount is too large") ;;
  raise_if (py_len_ne (s_locksroot self) 32)
           (ValueError "locksroot must have length 32") ;;
  raise_if (py_len_ne (s_message_hash self) 32)
           (ValueError "message_hash is an invalid hash") ;;
  raise_if (py_len_ne (s_signature self) 65)
           (ValueError "signature is an invalid signature") ;;
  validate (s_canonical_identifier self) ;;
  balance_hash ← hash_balance_data (s_transferred_amount self)
                   (s_locked_amount self) (s_locksroot self);
  Ok (s_set_balance_hash self balance_hash).

Definition new_BalanceProofSignedState
    (nonce transferred_amount locked_amount locksroot
     message_hash signature sender : pyval)
    (canonical_identifier : CanonicalIdentifier)
    (balance_hash : option pyval) : result BalanceProofSignedState :=
  BalanceProofSignedState_post_init
    (mkSigned nonce transferred_amount locked_amount locksroot
              message_hash signature sender
              canonical_identifier (default EMPTY_BALANCE_HASH balance_hash)).

(** The field invariants the specification lists for a balance proof
    (section 3), as conditions on the constructor's arguments.  No range is
    attached to locked_amount. *)
Definition unsigned_invariants (nonce transferred_amount locked_amount locksroot : pyval)
  : Prop :=
  ∃ (n t l : Z) (r : bytes),
    nonce = PyInt n ∧ transferred_amount = PyInt t ∧
    locked_amount = PyInt l ∧ locksroot = PyBytes r ∧
    0 < n ≤ UINT64_MAX ∧ 0 ≤ t ≤ UINT256_MAX ∧ length r = 32%nat.

Definition signed_invariants
    (nonce transferred_amount locked_amount locksroot
     message_hash signature sender : pyval) : Prop :=
  unsigned_invariants nonce transferred_amount locked_amount locksroot ∧
  ∃ m g a : bytes,
    message_hash = PyBytes m ∧ signature = PyBytes g ∧ sender = PyBytes a ∧
    length m = 32%nat ∧ length g = 65%nat.

(** Modelled from the spec: the interface of the canonical hash function
    (section 6), hash(transferred_amount, locked_amount, locksroot) giving a
    32-byte digest.  On two amounts in [0, 2^256 - 1] and a locksroot of 32
    bytes the function returns. *)
Definition hash_returns_in_range : Prop :=
  ∀ (t l : Z) (r : bytes),
    0 ≤ t ≤ UINT256_MAX → 0 ≤ l ≤ UINT256_MAX → length r = 32%nat →
    ∃ digest, hash_balance_data (PyInt t) (PyInt l) (PyBytes r) = Ok digest.

End WithCollaborators.

Arguments u_nonce {CanonicalIdentifier} b.
Arguments u_transferred_amount {CanonicalIdentifier} b.
Arguments u_locked_amount {CanonicalIdentifier} b.
Arguments u_locksroot {CanonicalIdentifier} b.
Arguments u_canonical_identifier {CanonicalIdentifier} b.
Arguments u_balance_hash {CanonicalIdentifier} b.
Arguments mkUnsigned {CanonicalIdentifier} _ _ _ _ _ _.
Arguments s_nonce {CanonicalIdentifier} b.
Arguments s_transferred_amount {CanonicalIdentifier} b.
Arguments s_locked_amount {CanonicalIdentifier} b.
Arguments s_locksroot {CanonicalIdentifier} b.
Arguments s_message_hash {CanonicalIdentifier} b.
Arguments s_signature {CanonicalIdentifier} b.
Arguments s_sender {CanonicalIdentifier} b.
Arguments s_canonical_identifier {CanonicalIdentifier} b.
Arguments s_balance_hash {CanonicalIdentifier} b.
Arguments mkSigned {CanonicalIdentifier} _ _ _ _ _ _ _ _ _.
Arguments new_BalanceProofUnsignedState {CanonicalIdentifier}
  validate hash_balance_data EMPTY_BALANCE_HASH
  nonce transferred_amount locked_amount locksroot canonical_identifier balance_hash.
Arguments new_BalanceProofSignedState {CanonicalIdentifier}
  validate hash_balance_data EMPTY_BALANCE_HASH
  nonce transferred_amount locked_amount locksroot message_hash signature sender
  canonical_identifier balance_hash.

End BalanceProof.

(** ** The state manager *)

Module StateMachine.

(** References to State instances. *)
Definition loc : Type := positive.

Section WithTypes.

(** What a State instance holds, the state changes and the events are fixed
    by the domain logic around this core.  A State instance is one object of
    the store: the tree of sub-states it owns is part of its content. *)
Variable StateData : Type.
Variable StateChange : Type.
Variable Event : Type.

(** The store of State instances. *)
Abbreviation heap := (gmap loc StateData).

(** The values a reducer can hand back, over the representation [Ref] of a
    State: a reference for the running program, the content read from the
    store for an observer.  Events are frozen dataclasses and lists of events
    are not modified once returned: both are values here. *)
Inductive value (Ref : Type) : Type :=
| VData (d : pyval)
| VState (r : Ref)
| VEvent (e : Event)
| VList (vs : list (value Ref))
| VTransitionResult (new_state events : value Ref).
Arguments VData {Ref} d.
Arguments VState {Ref} r.
Arguments VEvent {Ref} e.
Arguments VList {Ref} vs.
Arguments VTransitionResult {Ref} new_state events.

Fixpoint value_map {A B : Type} (f : A → B) (v : value A) : value B :=
  match v with
  | VData d => VData d
  | VState r => VState (f r)
  | VEvent e => VEvent e
  | VList vs => VList (List.map (value_map f) vs)
  | VTransitionResult n e => VTransitionResult (value_map f n) (value_map f e)
  end.

(** Modelled from the spec: [typecheck] of raiden.utils.typing, at the three
    classes [dispatch] checks against.  A value of the class is handed back
    with the part the caller goes on to use; any other value is an error. *)
Definition typecheck_TransitionResult {Ref} (v : value Ref)
  : result (value Ref * value Ref) :=
  match v with
  | VTransitionResult new_state events => Ok (new_state, events)
  | _ => Raise (ValueError "Expected a value of type TransitionResult")
  end.

Definition typecheck_Event {Ref} (v : value Ref) : result unit :=
  match v with
  | VEvent _ => Ok tt
  | _ => Raise (ValueError "Expected a value of type Event")
  end.

Definition typecheck_State {Ref} (v : value Ref) : result Ref :=
  match v with
  | VState r => Ok r
  | _ => Raise (ValueError "Expected a value of type State")
  end.

(** The elements a [for] loop draws from a value. *)
Definition py_iter {Ref} (v : value Ref) : result (list (value Ref)) :=
  match v with
  | VList vs => Ok vs
  | VData (PyBytes b) => Ok ((λ x, VData (PyInt (Z.of_N (Byte.to_N x)))) <$> b)
  | VData (PyStr s) =>
      Ok ((λ c, VData (PyStr (String c EmptyString))) <$> String.list_ascii_of_string s)
  | _ => Raise (TypeError "object is not iterable")
  end.

(** [for x in xs: body(x)], stopping at the first exception. *)
Fixpoint for_each {A} (body : A → result unit) (xs : list A) : result unit :=
  match xs with
  | [] => Ok tt
  | x :: rest => body x ;; for_each body rest
  end.

(** The checks of lines 273 to 276 on what the reducer returned, yielding
    [iteration.new_state] and [iteration.events]. *)
Definition check_iteration {Ref} (iteration : value Ref)
  : result (Ref * value Ref) :=
  '(new_state, events) ← typecheck_TransitionResult iteration;
  es ← py_iter events;
  for_each typecheck_Event es ;;
  next_state ← typecheck_State new_state;
  Ok (next_state, events).

(** A reducer is called with the store, the working state and one state
    change; it returns any value or raises, and leaves a store behind. *)
Definition reducer : Type :=
  heap → option loc → StateChange → heap * result (value loc).

Record StateManager : Type := mkStateManager {
  state_transition : reducer;
  current_state : option loc
}.

Definition set_current_state (self : StateManager) (s : option loc) : StateManager :=
  mkStateManager (state_transition self) s.

(** Modelled from the spec: [raiden.utils.copy.deepcopy], a full copy of the
    current state.  The copy of a State is a new object with the same
    content; the copy of None is None. *)
Definition deepcopy (h : heap) (s : option loc) : heap * option loc :=
  match s with
  | None => (h, None)
  | Some l =>
      match h !! l with
      | Some d => let l' := fresh (dom h) in (<[l' := d]> h, Some l')
      | None => (h, Some l)
      end
  end.

(** The [for] loop of [dispatch] (lines 270 to 280), from the working state
    and the event lists collected so far. *)
Fixpoint dispatch_loop (state_transition : reducer) (state_changes : list StateChange)
    (next_state : option loc) (events : list (value loc)) (h : heap)
  : heap * result (option loc * list (value loc)) :=
  match state_changes with
  | [] => (h, Ok (next_state, events))
  | state_change :: rest =>
      let '(h1, iteration) := state_transition h next_state state_change in
      match iteration ≫= check_iteration with
      | Raise e => (h1, Raise e)
      | Ok (new_state, iteration_events) =>
          dispatch_loop state_transition rest (Some new_state)
                        (events ++ [iteration_events]) h1
      end
  end.

(** [StateManager.dispatch]: the store and the manager after the call, and
    what the call returned or raised.  The timing of the copy and the debug
    log line are left out. *)
Definition dispatch (self : StateManager) (state_changes : list StateChange) (h : heap)
  : heap * StateManager * result (loc * list (value loc)) :=
  match state_changes with
  | [] => (h, self, Raise (ValueError "dispatch called with an empty state_changes list"))
  | _ :: _ =>
      let '(h0, next_state) := deepcopy h (current_state self) in
      match dispatch_loop (state_transition self) state_changes next_state [] h0 with
      | (h', Raise e) => (h', self, Raise e)
      | (h', Ok (None, _)) =>
          (h', self, Raise (AssertionError "State transition did not yield new state"))
      | (h', Ok (Some new_state, events)) =>
          (h', set_current_state self (Some new_state), Ok (new_state, events))
      end
  end.

(** *** Notions the properties are stated with *)

(** The sequential computation the specification compares [dispatch] with:
    [R(S0, c1) = (S1, E1)], then [R(S1, c2) = (S2, E2)], and so on, each
    result a TransitionResult of a State and a list of events. *)
Definition event_list (es : list Event) : value loc := VList (VEvent <$> es).

Inductive sequential_run (R : reducer)
  : heap → option loc → list StateChange → heap → option loc → list (list Event) → Prop :=
| run_done h s : sequential_run R h s [] h s []
| run_step h s c cs h1 s1 E1 h' s' Es :
    R h s c = (h1, Ok (VTransitionResult (VState s1) (event_list E1))) →
    sequential_run R h1 (Some s1) cs h' s' Es →
    sequential_run R h s (c :: cs) h' s' (E1 :: Es).

(** A reducer result that breaks the contract: not a TransitionResult, or a
    new_state that is not a State, or an event that is not an Event. *)
Inductive bad_result : value loc → Prop :=
| bad_not_transition_result v :
    (∀ n e, v ≠ VTransitionResult n e) → bad_result v
| bad_new_state n e :
    (∀ l, n ≠ VState l) → bad_result (VTransitionResult n e)
| bad_event n es x :
    x ∈ es → (∀ e, x ≠ VEvent e) → bad_result (VTransitionResult n (VList es)).

(** A reducer that reaches State instances through its argument only: every
    other object of the store is left as it is, and the state it returns is
    the one it was handed or a new object. *)
Definition writes_own_state_only (R : reducer) : Prop :=
  ∀ h s c h' r, R h s c = (h', r) →
    (∀ l, is_Some (h !! l) → s ≠ Some l → h' !! l = h !! l) ∧
    (∀ l evs, r = Ok (VTransitionResult (VState l) evs) →
              s = Some l ∨ h !! l = None).

(** What an observer reads: the content of a state, and a value with the
    content of each State in place of its reference. *)
Definition view (h : heap) (s : option loc) : option (option StateData) :=
  (λ l, h !! l) <$> s.

Definition observe (h : heap) (v : value loc) : value (option StateData) :=
  value_map (λ l, h !! l) v.

Definition observe_result (h : heap) (r : result (loc * list (value loc)))
  : result (option StateData * list (value (option StateData))) :=
  match r with
  | Ok (l, events) => Ok (h !! l, List.map (observe h) events)
  | Raise e => Raise e
  end.

(** The outcome of one reducer call, as an observer reads it from the store
    the call leaves behind. *)
Definition observe_outcome (o : heap * result (value loc))
  : result (value (option StateData)) :=
  match o.2 with
  | Ok v => Ok (observe o.1 v)
  | Raise e => Raise e
  end.

(** Two sequences of event lists that read the same, in whatever stores. *)
Definition same_events (evs1 evs2 : list (value loc)) : Prop :=
  ∀ ha hb : heap, List.map (observe ha) evs1 = List.map (observe hb) evs2.

(** A deterministic reducer: what it returns or raises is a function of the
    content of the state it is given and of the state change, whichever
    object holds that content and whatever else is in the store. *)
Definition deterministic (R : reducer) : Prop :=
  ∀ h1 s1 h2 s2 c, view h1 s1 = view h2 s2 →
    observe_outcome (R h1 s1 c) = observe_outcome (R h2 s2 c).

End WithTypes.

Arguments VData {Event Ref} d.
Arguments VState {Event Ref} r.
Arguments VEvent {Event Ref} e.
Arguments VList {Event Ref} vs.
Arguments VTransitionResult {Event Ref} new_state events.
Arguments value_map {Event A B} f v.
Arguments typecheck_TransitionResult {Event Ref} v.
Arguments typecheck_Event {Event Ref} v.
Arguments typecheck_State {Event Ref} v.
Arguments py_iter {Event Ref} v.
Arguments check_iteration {Event Ref} iteration.
Arguments mkStateManager {StateData StateChange Event} state_transition current_state.
Arguments state_transition {StateData StateChange Event} s.
Arguments current_state {StateData StateChange Event} s.
Arguments set_current_state {StateData StateChange Event} self s.
Arguments deepcopy {StateData} h s.
Arguments dispatch_loop {StateData StateChange Event}
  state_transition state_changes next_state events h.
Arguments dispatch {StateData StateChange Event} self state_changes h.
Arguments event_list {Event} es.
Arguments sequential_run {StateData StateChange Event} R _ _ _ _ _ _.
Arguments run_done {StateData StateChange Event} R h s.
Arguments run_step {StateData StateChange Event} R h s c cs h1 s1 E1 h' s' Es _ _.
Arguments bad_result {Event} _.
Arguments bad_not_transition_result {Event} v _.
Arguments bad_new_state {Event} n e _.
Arguments bad_event {Event} n es x _ _.
Arguments writes_own_state_only {StateData StateChange Event} R.
Arguments view {StateData} h s.
Arguments observe {StateData Event} h v.
Arguments observe_result {StateData Event} h r.
Arguments observe_outcome {StateData Event} o.
Arguments same_events StateData {Event} evs1 evs2.
Arguments deterministic {StateData StateChange Event} R.

End StateMachine.

(** ** A concrete reducer *)

Module Scenario.
Import StateMachine.

(** The scenario of the specification: the state is a counter, a change
    increments it and emits no event.  Two more changes make the reducer
    break its contract: on [Boom] it raises, on [Junk] it returns None in
    place of a TransitionResult. *)
Inductive change : Type := Tick | Boom | Junk.

Definition counter : reducer Z change Empty_set :=
  λ h s c,
    match s with
    | Some l =>
        match h !! l, c with
        | Some n, Tick =>
            (<[l := n + 1]> h, Ok (VTransitionResult (VState l) (VList [])))
        | Some n, Boom => (h, Raise (Exception "boom"))
        | Some n, Junk => (h, Ok (VData PyNone))
        | None, _ => (h, Raise (Exception "no such state"))
        end
    | None => (h, Raise (Exception "no state"))
    end.

(** A store with one State, the counter at 0, and its manager. *)
Definition store0 : gmap loc Z := {[ 1%positive := 0 ]}.
Definition manager0 : StateManager Z change Empty_set :=
  mkStateManager counter (Some 1%positive).

(** The store after one and after two increments of the working copy. *)
Definition store1 : gmap loc Z := {[ 1%positive := 0; 2%positive := 1 ]}.
Definition store2 : gmap loc Z := {[ 1%positive := 0; 2%positive := 2 ]}.

(** The same counter held by another object of another store. *)
Definition store0' : gmap loc Z := {[ 5%positive := 0; 6%positive := 42 ]}.
Definition manager0' : StateManager Z change Empty_set :=
  mkStateManager counter (Some 5%positive).

(** A canonical identifier that always validates, and a stand-in for the
    hash that depends on its three arguments. *)
Definition validate_ok : unit → result unit := λ _, Ok tt.

Definition toy_hash (transferred_amount locked_amount locksroot : pyval)
  : result pyval :=
  match transferred_amount, locked_amount, locksroot with
  | PyInt t, PyInt l, PyBytes r =>
      Ok (PyInt (7 * t + 13 * l + Z.of_nat (length r)))
  | _, _, _ => Raise (TypeError "unsupported operand")
  end.

(** The same, for a hash that encodes its two amounts as unsigned 256-bit
    integers and raises on any other integer. *)
Definition uint256_hash (transferred_amount locked_amount locksroot : pyval)
  : result pyval :=
  match transferred_amount, locked_amount with
  | PyInt t, PyInt l =>
      if (0 <=? t) && (t <=? UINT256_MAX) && (0 <=? l) && (l <=? UINT256_MAX)
      then toy_hash transferred_amount locked_amount locksroot
      else Raise (Exception "ValueOutOfBounds")
  | _, _ => Raise (TypeError "unsupported operand")
  end.



Definition zero32 : bytes := replicate 32 Byte.x00.

End Scenario.


(** ** Equality of reducer results *)

Module Equality.
Import StateMachine.

#[global] Instance byte_eq_decision : EqDecision byte := Byte.byte_eq_dec.
#[global] Instance pyval_eq_decision : EqDecision pyval.
Proof. solve_decision. Defined.

Section WithTypes.

Context {StateData : Type} `{!EqDecision StateData}.
Context {Event : Type} `{!EqDecision Event}.

(** Python's [==] on the values of the model, read in a store.  State and
    the events are dataclasses: two instances are equal when their fields
    are, whichever objects they are.  Lists are equal element by element.
    The last case is [TransitionResult.__eq__] below. *)
Fixpoint py_eq (h : gmap loc StateData) (a b : value Event loc) : bool :=
  match a, b with
  | VData x, VData y => bool_decide (x = y)
  | VState l1, VState l2 => bool_decide (h !! l1 = h !! l2)
  | VEvent e1, VEvent e2 => bool_decide (e1 = e2)
  | VList xs, VList ys =>
      (fix all2 (xs ys : list (value Event loc)) : bool :=
         match xs, ys with
         | [], [] => true
         | x :: xs', y :: ys' => py_eq h x y && all2 xs' ys'
         | _, _ => false
         end) xs ys
  | VTransitionResult n1 e1, VTransitionResult n2 e2 =>
      py_eq h n1 n2 && py_eq h e1 e2
  | _, _ => false
  end.

(** [TransitionResult.__eq__] and [TransitionResult.__ne__], for [self] the
    TransitionResult of the two given fields and any [other]. *)
Definition TransitionResult_eq (h : gmap loc StateData)
    (new_state events other : value Event loc) : bool :=
  match other with
  | VTransitionResult other_new_state other_events =>
      py_eq h new_state other_new_state && py_eq h events other_events
  | _ => false
  end.

Definition TransitionResult_ne (h : gmap loc StateData)
    (new_state events other : value Event loc) : bool :=
  negb (TransitionResult_eq h new_state events other).

End WithTypes.
End Equality.

(** ** SuccessOrError *)

Module SuccessOrError.

(** [sep.join(items)] on strings. *)
Fixpoint join (sep : string) (items : list string) : string :=
  match items with
  | [] => ""
  | [x] => x
  | x :: rest => x +:+ sep +:+ join sep rest
  end.

Record SuccessOrError : Type := mkSuccessOrError {
  error_messages : list string
}.

(** The constructor: the messages given, in a new list. *)
Definition new (error_messages : list string) : SuccessOrError :=
  mkSuccessOrError error_messages.

Definition ok (self : SuccessOrError) : bool :=
  match error_messages self with
  | [] => true
  | _ :: _ => false
  end.

Definition fail (self : SuccessOrError) : bool := negb (ok self).

Definition as_error_message (self : SuccessOrError) : string :=
  join " / " (error_messages self).

End SuccessOrError.

(** ** raiden/network/utils.py *)

Module NetworkUtils.

(** *** The generator of unused ports (the branch for platforms other than
    macOS) *)

(** A connection as [psutil.net_connections] reports it: the local address,
    when the connection has one, is an address and a port. *)
Record sconn : Type := mkSconn {
  laddr : option (string * Z)
}.

(** [hasattr(conn, "laddr") and conn.laddr[1] == port]. *)
Definition uses_port (port : Z) (conn : sconn) : bool :=
  match laddr conn with
  | Some (_, p) => p =? port
  | None => false
  end.

(** [initial_port or 27854]: None and 0 give the default. *)
Definition start_port (initial_port : option Z) : Z :=
  match initial_port with
  | None => 27854
  | Some p => if p =? 0 then 27854 else p
  end.

Section WithConnections.

(** The table [psutil.net_connections()] returns at its k-th call. *)
Variable net_connections : nat → list sconn.

(** One [next()] on the generator, from the number of calls made to psutil
    so far and the value [count] is at: the port yielded, and the two after
    the yield.  The loop has no bound; [fuel] is the number of candidates it
    may try. *)
Fixpoint next_port (fuel : nat) (calls : nat) (port : Z) : option (Z * nat * Z) :=
  match fuel with
  | O => None
  | S fuel' =>
      if existsb (uses_port port) (net_connections calls)
      then next_port fuel' (S calls) (port + 1)
      else Some (port, S calls, port + 1)
  end.

(** Whether the candidate [q] was in use in the table read for it, when the
    generator stood at [port] after [calls] calls to psutil. *)
Definition in_use_when_tried (calls : nat) (port q : Z) : bool :=
  existsb (uses_port q) (net_connections (calls + Z.to_nat (q - port))).

(** A caller that draws [n] ports from the generator, one [next()] after
    the other. *)
Fixpoint draw_ports (fuel : nat) (n : nat) (calls : nat) (port : Z)
  : option (list Z) :=
  match n with
  | O => Some []
  | S n' =>
      match next_port fuel calls port with
      | None => None
      | Some (p, calls', port') =>
          match draw_ports fuel n' calls' port' with
          | None => None
          | Some ps => Some (p :: ps)
          end
      end
  end.

End WithConnections.

(** [get_free_port(initial_port)] returns the generator, which starts at
    [initial_port or 27854]; drawing from it is [next_port] from there. *)
Definition get_free_port (initial_port : option Z) : Z := start_port initial_port.

(** *** [return_after_retries] *)

Section WithRequests.

(** Floating-point numbers are kept abstract: 0.0, the sum of two floats and
    the quotient of a float by a non-zero integer.  The division converts
    the integer to a float first, and raises (an OverflowError) when the
    integer is too large for that. *)
Variable float : Type.
Variable float_zero : float.
Variable float_add : float → float → float.
Variable float_div : float → Z → result float.

(** What one [requests.request] followed by [raise_for_status] comes to: a
    response with its elapsed seconds, of a status that is an error or not;
    an OSError or RequestException raised by the request; any other
    exception. *)
Inductive outcome : Type :=
| Responded (status_ok : bool) (elapsed : float)
| Refused
| Crashed (e : exn).

(** The outcome of the k-th request made. *)
Variable request : nat → outcome.

(** The requests made and the calls of [sleep] so far. *)
Record world : Type := mkWorld {
  requests_made : nat;
  sleeps : nat
}.

(** The [for] loop over [range(samples)], with [n] turns to go: the sum of
    the durations when it runs to its end, None when a turn returned None. *)
Fixpoint retry_loop (n : nat) (durations : float) (w : world)
  : world * result (option float) :=
  match n with
  | O => (w, Ok (Some durations))
  | S n' =>
      let w1 := mkWorld (S (requests_made w)) (sleeps w) in
      match request (requests_made w) with
      | Responded true elapsed =>
          retry_loop n' (float_add durations elapsed)
                     (mkWorld (requests_made w1) (S (sleeps w1)))
      | Responded false _ | Refused => (w1, Ok None)
      | Crashed e => (w1, Raise e)
      end
  end.

(** The next requests are answered without an error status, one after the
    other with the elapsed times [els]. *)
Definition answered (w : world) (els : list float) : Prop :=
  ∀ k e, els !! k = Some e →
         request (requests_made w + k)%nat = Responded true e.

Definition return_after_retries (url : string) (samples : Z) (w : world)
  : world * result (option (string * float)) :=
  match retry_loop (Z.to_nat samples) float_zero w with
  | (w', Ok (Some durations)) =>
      if samples =? 0
      then (w', Raise (Exception "ZeroDivisionError: float division by zero"))
      else
        match float_div durations samples with
        | Ok average => (w', Ok (Some (url, average)))
        | Raise e => (w', Raise e)
        end
  | (w', Ok None) => (w', Ok None)
  | (w', Raise e) => (w', Raise e)
  end.

End WithRequests.

Arguments Responded {float} status_ok elapsed.
Arguments Refused {float}.
Arguments Crashed {float} e.
Arguments retry_loop {float} float_add request n durations w.
Arguments answered {float} request w els.
Arguments return_after_retries {float} float_zero float_add float_div request
  url samples w.

End NetworkUtils.

(** ** Concrete connections and requests *)

Module NetworkScenario.
Import NetworkUtils.

(** Connections on the default port and the one after it, and one without
    a local address. *)
Definition busy_table : list sconn :=
  [mkSconn (Some ("127.0.0.1", 27854)); mkSconn None;
   mkSconn (Some ("0.0.0.0", 27855))].

(** By the third call to psutil the connection on 27855 is gone. *)
Definition changing_connections (call : nat) : list sconn :=
  match call with
  | 0%nat | 1%nat => busy_table
  | _ => [mkSconn (Some ("127.0.0.1", 27854))]
  end.

(** Durations in milliseconds stand for the floats: two requests answered
    in 120 and 80, the third refused, those after it answered in 100. *)
Definition slow_then_refused (k : nat) : outcome Z :=
  match k with
  | 0%nat => Responded true 120
  | 1%nat => Responded true 80
  | 2%nat => Refused
  | _ => Responded true 100
  end.

Definition world0 : world := mkWorld 0 0.

(** The division for them: the integer must be below 2^1024 in magnitude to
    be made a float. *)
Definition ms_div (duration : Z) (n : Z) : result Z :=
  if 2 ^ 1024 <=? Z.abs n
  then Raise (Exception "OverflowError: int too large to convert to float")
  else Ok (duration / n).

End NetworkScenario.

(** * Properties *)

(** ** Balance proofs *)

Module BalanceProofFacts.
Import BalanceProof Scenario.

Section Facts.

Variable CanonicalIdentifier : Type.
Variable validate : CanonicalIdentifier → result unit.
Variable hash_balance_data : pyval → pyval → pyval → result pyval.
Variable EMPTY_BALANCE_HASH : pyval.

Abbreviation new_unsigned :=
  (new_BalanceProofUnsignedState validate hash_balance_data EMPTY_BALANCE_HASH).
Abbreviation new_signed :=
  (new_BalanceProofSignedState validate hash_balance_data EMPTY_BALANCE_HASH).

(** One step through [__post_init__]: a case on a field or on a range test,
    closing the branches in which the constructor has raised. *)
Ltac field v := destruct v; cbn in *; try discriminate; try (by eexists).
Ltac range_test :=
  match goal with
  | |- context [?a <=? ?b] => destruct (Z.leb_spec a b)
  | |- context [?a <? ?b] => destruct (Z.ltb_spec a b)
  | |- context [?a =? ?b] => destruct (Z.eqb_spec a b)
  | H : context [?a <=? ?b] |- _ => destruct (Z.leb_spec a b)
  | H : context [?a <? ?b] |- _ => destruct (Z.ltb_spec a b)
  | H : context [?a =? ?b] |- _ => destruct (Z.eqb_spec a b)
  end; cbn in *; try discriminate; try (by eexists).

(** A constructor call that returns has checked every invariant, and returns
    its arguments with the recomputed hash. *)
Lemma new_unsigned_inv n ta la lr cid bh bp :
  new_unsigned n ta la lr cid bh = Ok bp →
  unsigned_invariants n ta la lr ∧ validate cid = Ok tt ∧
  ∃ digest, hash_balance_data ta la lr = Ok digest ∧
            bp = mkUnsigned n ta la lr cid digest.
Proof.
  unfold new_BalanceProofUnsignedState, BalanceProofUnsignedState_post_init.
  cbn. intros H.
  field n. field ta. field la. field lr.
  do 5 range_test.
  destruct (validate cid) as [[]|] eqn:Hv; cbn in H; [|discriminate].
  destruct (hash_balance_data _ _ _) as [digest|] eqn:Hh; cbn in H;
    [|discriminate].
  injection H as <-. split; [|split; [done|by exists digest]].
  eexists _, _, _, _. repeat split; try reflexivity; lia.
Qed.

(** Conversely, arguments that meet the invariants with an identifier that
    validates make the constructor return. *)
Lemma new_unsigned_ok n ta la lr cid bh :
  unsigned_invariants n ta la lr → validate cid = Ok tt →
  new_unsigned n ta la lr cid bh =
    match hash_balance_data ta la lr with
    | Ok digest => Ok (mkUnsigned n ta la lr cid digest)
    | Raise e => Raise e
    end.
Proof.
  intros (zn & zt & zl & r & -> & -> & -> & -> & Hn & Ht & Hr) Hv.
  unfold new_BalanceProofUnsignedState, BalanceProofUnsignedState_post_init.
  cbn. do 5 (range_test; try lia). by rewrite Hv.
Qed.

(** What the constructor raises is a ValueError, unless every field check
    passed and the exception is the one of [validate]. *)
Lemma new_unsigned_raises n ta la lr cid bh e :
  new_unsigned n ta la lr cid bh = Raise e →
  (∃ msg, e = ValueError msg) ∨
  (unsigned_invariants n ta la lr ∧
   (validate cid = Raise e ∨
    (validate cid = Ok tt ∧ hash_balance_data ta la lr = Raise e))).
Proof.
  unfold new_BalanceProofUnsignedState, BalanceProofUnsignedState_post_init.
  cbn. intros H.
  field n; try (injection H as <-; by eauto).
  field ta; try (injection H as <-; by eauto).
  field la; try (injection H as <-; by eauto).
  field lr; try (injection H as <-; by eauto).
  do 5 (range_test; try (injection H as <-; by eauto)).
  right. split.
  { eexists _, _, _, _. repeat split; try reflexivity; lia. }
  destruct (validate cid) as [[]|e'] eqn:Hv; cbn in H.
  - destruct (hash_balance_data _ _ _) as [digest|e'] eqn:Hh; cbn in H;
      [discriminate|]. injection H as <-. by right.
  - injection H as <-. by left.
Qed.

Lemma new_signed_inv n ta la lr mh sg sd cid bh bp :
  new_signed n ta la lr mh sg sd cid bh = Ok bp →
  signed_invariants n ta la lr mh sg sd ∧ validate cid = Ok tt ∧
  ∃ digest, hash_balance_data ta la lr = Ok digest ∧
            bp = mkSigned n ta la lr mh sg sd cid digest.
Proof.
  unfold new_BalanceProofSignedState, BalanceProofSignedState_post_init.
  cbn. intros H.
  field n. field ta. field la. field lr. field mh. field sg. field sd.
  do 7 range_test.
  destruct (validate cid) as [[]|] eqn:Hv; cbn in H; [|discriminate].
  destruct (hash_balance_data _ _ _) as [digest|] eqn:Hh; cbn in H;
    [|discriminate].
  injection H as <-. split; [|split; [done|by exists digest]]. split.
  - eexists _, _, _, _. repeat split; try reflexivity; lia.
  - eexists _, _, _. repeat split; try reflexivity; lia.
Qed.

Lemma new_signed_ok n ta la lr mh sg sd cid bh :
  signed_invariants n ta la lr mh sg sd → validate cid = Ok tt →
  new_signed n ta la lr mh sg sd cid bh =
    match hash_balance_data ta la lr with
    | Ok digest => Ok (mkSigned n ta la lr mh sg sd cid digest)
    | Raise e => Raise e
    end.
Proof.
  intros [(zn & zt & zl & r & -> & -> & -> & -> & Hn & Ht & Hr)
          (m & g & a & -> & -> & -> & Hm & Hg)] Hv.
  unfold new_BalanceProofSignedState, BalanceProofSignedState_post_init.
  cbn. do 7 (range_test; try lia). by rewrite Hv.
Qed.

Lemma new_signed_raises n ta la lr mh sg sd cid bh e :
  new_signed n ta la lr mh sg sd cid bh = Raise e →
  (∃ msg, e = ValueError msg) ∨
  (signed_invariants n ta la lr mh sg sd ∧
   (validate cid = Raise e ∨
    (validate cid = Ok tt ∧ hash_balance_data ta la lr = Raise e))).
Proof.
  unfold new_BalanceProofSignedState, BalanceProofSignedState_post_init.
  cbn. intros H.
  field n; try (injection H as <-; by eauto).
  field ta; try (injection H as <-; by eauto).
  field la; try (injection H as <-; by eauto).
  field lr; try (injection H as <-; by eauto).
  field mh; try (injection H as <-; by eauto).
  field sg; try (injection H as <-; by eauto).
  field sd; try (injection H as <-; by eauto).
  do 7 (range_test; try (injection H as <-; by eauto)).
  right. split.
  { split.
    - eexists _, _, _, _. repeat split; try reflexivity; lia.
    - eexists _, _, _. repeat split; try reflexivity; lia. }
  destruct (validate cid) as [[]|e'] eqn:Hv; cbn in H.
  - destruct (hash_balance_data _ _ _) as [digest|e'] eqn:Hh; cbn in H;
      [discriminate|]. injection H as <-. by right.
  - injection H as <-. by left.
Qed.

(** C1. Whenever BalanceProofUnsignedState or BalanceProofSignedState is
    constructed without raising, the balance_hash of the object is the
    canonical hash of its transferred_amount, locked_amount and locksroot,
    whatever balance_hash the caller supplied (or left to its default). *)
Theorem balance_hash_recomputed n ta la lr mh sg sd cid supplied :
  (∀ bp,
     new_BalanceProofUnsignedState validate hash_balance_data EMPTY_BALANCE_HASH
       n ta la lr cid supplied = Ok bp →
     hash_balance_data ta la lr = Ok (u_balance_hash bp)) ∧
  (∀ bp,
     new_BalanceProofSignedState validate hash_balance_data EMPTY_BALANCE_HASH
       n ta la lr mh sg sd cid supplied = Ok bp →
     hash_balance_data ta la lr = Ok (s_balance_hash bp)).
Proof.
  split; intros bp H.
  - by apply new_unsigned_inv in H as (_ & _ & digest & ? & ->).
  - by apply new_signed_inv in H as (_ & _ & digest & ? & ->).
Qed.

(** C4. Construction of either balance proof fails with a validation error
    when nonce is 0, when nonce is 2^64, when transferred_amount is negative
    or when locksroot has a length other than 32; construction of the signed
    one fails as well when signature has a length other than 65 or
    message_hash a length other than 32.  The other fields are arbitrary. *)
Theorem malformed_fields_rejected n ta la lr mh sg sd cid bh :
  (n = PyInt 0 ∨ n = PyInt (2 ^ 64) ∨
   (∃ t, ta = PyInt t ∧ t < 0) ∨
   (∃ r, lr = PyBytes r ∧ length r ≠ 32%nat) →
   is_ValueError
     (new_BalanceProofUnsignedState validate hash_balance_data EMPTY_BALANCE_HASH
        n ta la lr cid bh)) ∧
  (n = PyInt 0 ∨ n = PyInt (2 ^ 64) ∨
   (∃ t, ta = PyInt t ∧ t < 0) ∨
   (∃ r, lr = PyBytes r ∧ length r ≠ 32%nat) ∨
   (∃ g, sg = PyBytes g ∧ length g ≠ 65%nat) ∨
   (∃ m, mh = PyBytes m ∧ length m ≠ 32%nat) →
   is_ValueError
     (new_BalanceProofSignedState validate hash_balance_data EMPTY_BALANCE_HASH
        n ta la lr mh sg sd cid bh)).
Proof.
  assert (Hu : n = PyInt 0 ∨ n = PyInt (2 ^ 64) ∨
               (∃ t, ta = PyInt t ∧ t < 0) ∨
               (∃ r, lr = PyBytes r ∧ length r ≠ 32%nat) →
               ¬ unsigned_invariants n ta la lr).
  { intros Hbad (zn & zt & zl & r & -> & -> & -> & -> & Hn & Ht & Hr).
    unfold UINT64_MAX in Hn.
    destruct Hbad as [[= ->]|[[= ->]|[(t & [= ->] & ?)|(r' & [= ->] & ?)]]];
      (lia || done). }
  split; intros Hbad.
  - destruct (new_unsigned n ta la lr cid bh) as [bp|e] eqn:H.
    + apply new_unsigned_inv in H as (Hinv & _). by destruct (Hu Hbad).
    + apply new_unsigned_raises in H as [[msg ->]|[Hinv _]]; [by exists msg|].
      by destruct (Hu Hbad).
  - assert (¬ signed_invariants n ta la lr mh sg sd) as Hs.
    { intros [Hinv (m & g & a & -> & -> & -> & Hm & Hg)].
      destruct Hbad as [?|[?|[?|[?|[(g' & [= ->] & ?)|(m' & [= ->] & ?)]]]]];
        try done; apply Hu; auto. }
    destruct (new_signed n ta la lr mh sg sd cid bh) as [bp|e] eqn:H.
    + apply new_signed_inv in H as (Hinv & _). by destruct Hs.
    + apply new_signed_raises in H as [[msg ->]|[Hinv _]]; [by exists msg|].
      by destruct Hs.
Qed.

(** C5. For a nonce in (0, 2^64 - 1], a transferred_amount and a
    locked_amount in [0, 2^256 - 1], a locksroot of 32 bytes and a canonical
    identifier that validates, constructing BalanceProofUnsignedState returns
    an object, and its balance_hash is the canonical hash of
    (transferred_amount, locked_amount, locksroot).  The canonical hash
    function is the one of the specification: it returns on such
    arguments. *)
Theorem unsigned_construction_succeeds (n ta la : Z) (lr : bytes) cid bh :
  hash_returns_in_range hash_balance_data →
  0 < n ≤ UINT64_MAX → 0 ≤ ta ≤ UINT256_MAX → 0 ≤ la ≤ UINT256_MAX →
  length lr = 32%nat → validate cid = Ok tt →
  ∃ bp,
    new_BalanceProofUnsignedState validate hash_balance_data EMPTY_BALANCE_HASH
      (PyInt n) (PyInt ta) (PyInt la) (PyBytes lr) cid bh = Ok bp ∧
    hash_balance_data (PyInt ta) (PyInt la) (PyBytes lr)
    = Ok (u_balance_hash bp).
Proof.
  intros Hhash Hn Ht Hl Hr Hv.
  destruct (Hhash ta la lr Ht Hl Hr) as [digest Hd].
  exists (mkUnsigned (PyInt n) (PyInt ta) (PyInt la) (PyBytes lr) cid digest).
  split; [|exact Hd].
  rewrite new_unsigned_ok, Hd; [done| |done]. by eexists _, _, _, _.
Qed.


(** *** Further properties of the constructors *)

(** X1. BalanceProofUnsignedState is constructed exactly when nonce is an
    integer in (0, 2^64 - 1], transferred_amount an integer in
    [0, 2^256 - 1], locked_amount an integer, locksroot a byte string of
    length 32, the canonical identifier validates and the canonical hash
    function returns on (transferred_amount, locked_amount, locksroot); the
    object then holds the arguments as given, with what the hash function
    returned as balance_hash. *)
Theorem unsigned_construction_iff n ta la lr cid bh bp :
  new_BalanceProofUnsignedState validate hash_balance_data EMPTY_BALANCE_HASH
    n ta la lr cid bh = Ok bp
  ↔ unsigned_invariants n ta la lr ∧ validate cid = Ok tt ∧
    ∃ digest, hash_balance_data ta la lr = Ok digest ∧
              bp = mkUnsigned n ta la lr cid digest.
Proof.
  split; [apply new_unsigned_inv|].
  intros (Hinv & Hv & digest & Hd & ->). by rewrite new_unsigned_ok, Hd.
Qed.

(** X2. BalanceProofSignedState is constructed exactly when the four fields
    it shares with the unsigned proof meet the same conditions, message_hash
    is a byte string of length 32, signature a byte string of length 65,
    sender a byte string (of any length), the canonical identifier validates
    and the canonical hash function returns on (transferred_amount,
    locked_amount, locksroot); the object then holds the arguments as given,
    with what the hash function returned as balance_hash. *)
Theorem signed_construction_iff n ta la lr mh sg sd cid bh bp :
  new_BalanceProofSignedState validate hash_balance_data EMPTY_BALANCE_HASH
    n ta la lr mh sg sd cid bh = Ok bp
  ↔ signed_invariants n ta la lr mh sg sd ∧ validate cid = Ok tt ∧
    ∃ digest, hash_balance_data ta la lr = Ok digest ∧
              bp = mkSigned n ta la lr mh sg sd cid digest.
Proof.
  split; [apply new_signed_inv|].
  intros (Hinv & Hv & digest & Hd & ->). by rewrite new_signed_ok, Hd.
Qed.

(** X3. Whatever the arguments, what either constructor raises is a
    ValueError of its own checks, or else every field check has passed and
    the exception is the one raised by the validation of the canonical
    identifier, or, the identifier validated, by the canonical hash
    function: the comparisons and [len] of the constructor never meet a
    value of the wrong type. *)
Theorem construction_exceptions n ta la lr mh sg sd cid bh e :
  (new_BalanceProofUnsignedState validate hash_balance_data EMPTY_BALANCE_HASH
     n ta la lr cid bh = Raise e →
   (∃ msg, e = ValueError msg) ∨
   (unsigned_invariants n ta la lr ∧
    (validate cid = Raise e ∨
     (validate cid = Ok tt ∧ hash_balance_data ta la lr = Raise e)))) ∧
  (new_BalanceProofSignedState validate hash_balance_data EMPTY_BALANCE_HASH
     n ta la lr mh sg sd cid bh = Raise e →
   (∃ msg, e = ValueError msg) ∨
   (signed_invariants n ta la lr mh sg sd ∧
    (validate cid = Raise e ∨
     (validate cid = Ok tt ∧ hash_balance_data ta la lr = Raise e)))).
Proof. split; [apply new_unsigned_raises|apply new_signed_raises]. Qed.

(** X4. The checks of BalanceProofUnsignedState run in a fixed order, and
    the first one that fails gives the message: the nonce against 0, the
    nonce against 2^64 - 1, transferred_amount against 0, transferred_amount
    against 2^256 - 1, then the length of locksroot. *)
Theorem unsigned_first_failing_check (n ta la : Z) (lr : bytes) cid bh :
  let new := new_BalanceProofUnsignedState validate hash_balance_data
               EMPTY_BALANCE_HASH (PyInt n) (PyInt ta) (PyInt la) (PyBytes lr)
               cid bh in
  (n ≤ 0 → new = Raise (ValueError "nonce cannot be zero or negative")) ∧
  (UINT64_MAX < n → new = Raise (ValueError "nonce is too large")) ∧
  (0 < n ≤ UINT64_MAX → ta < 0 →
   new = Raise (ValueError "transferred_amount cannot be negative")) ∧
  (0 < n ≤ UINT64_MAX → UINT256_MAX < ta →
   new = Raise (ValueError "transferred_amount is too large")) ∧
  (0 < n ≤ UINT64_MAX → 0 ≤ ta ≤ UINT256_MAX → length lr ≠ 32%nat →
   new = Raise (ValueError "locksroot must have length 32")).
Proof.
  cbn zeta.
  unfold new_BalanceProofUnsignedState, BalanceProofUnsignedState_post_init.
  assert (0 < UINT64_MAX ∧ 0 < UINT256_MAX) as [? ?] by done.
  cbn. repeat split; intros; repeat (range_test; try lia; try done).
Qed.

(** X5. The same for BalanceProofSignedState, whose checks go on with the
    length of message_hash and then the length of signature. *)
Theorem signed_first_failing_check (n ta la : Z) (lr mh sg sd : bytes) cid bh :
  let new := new_BalanceProofSignedState validate hash_balance_data
               EMPTY_BALANCE_HASH (PyInt n) (PyInt ta) (PyInt la) (PyBytes lr)
               (PyBytes mh) (PyBytes sg) (PyBytes sd) cid bh in
  (n ≤ 0 → new = Raise (ValueError "nonce cannot be zero or negative")) ∧
  (UINT64_MAX < n → new = Raise (ValueError "nonce is too large")) ∧
  (0 < n ≤ UINT64_MAX → ta < 0 →
   new = Raise (ValueError "transferred_amount cannot be negative")) ∧
  (0 < n ≤ UINT64_MAX → UINT256_MAX < ta →
   new = Raise (ValueError "transferred_amount is too large")) ∧
  (0 < n ≤ UINT64_MAX → 0 ≤ ta ≤ UINT256_MAX → length lr ≠ 32%nat →
   new = Raise (ValueError "locksroot must have length 32")) ∧
  (0 < n ≤ UINT64_MAX → 0 ≤ ta ≤ UINT256_MAX → length lr = 32%nat →
   length mh ≠ 32%nat →
   new = Raise (ValueError "message_hash is an invalid hash")) ∧
  (0 < n ≤ UINT64_MAX → 0 ≤ ta ≤ UINT256_MAX → length lr = 32%nat →
   length mh = 32%nat → length sg ≠ 65%nat →
   new = Raise (ValueError "signature is an invalid signature")).
Proof.
  cbn zeta.
  unfold new_BalanceProofSignedState, BalanceProofSignedState_post_init.
  assert (0 < UINT64_MAX ∧ 0 < UINT256_MAX) as [? ?] by done.
  cbn. repeat split; intros; repeat (range_test; try lia; try done).
Qed.

(** X6. The canonical identifier is validated last.  When a field check
    fails, the outcome of either constructor is the same whatever the
    validation would do; when all of them pass, an exception of the
    validation is the exception of the constructor. *)
Theorem validate_consulted_last
    (validate' : CanonicalIdentifier → result unit) n ta la lr mh sg sd cid bh :
  (¬ unsigned_invariants n ta la lr →
   new_BalanceProofUnsignedState validate hash_balance_data EMPTY_BALANCE_HASH
     n ta la lr cid bh
   = new_BalanceProofUnsignedState validate' hash_balance_data EMPTY_BALANCE_HASH
       n ta la lr cid bh) ∧
  (¬ signed_invariants n ta la lr mh sg sd →
   new_BalanceProofSignedState validate hash_balance_data EMPTY_BALANCE_HASH
     n ta la lr mh sg sd cid bh
   = new_BalanceProofSignedState validate' hash_balance_data EMPTY_BALANCE_HASH
       n ta la lr mh sg sd cid bh) ∧
  (∀ e, unsigned_invariants n ta la lr → validate cid = Raise e →
        new_BalanceProofUnsignedState validate hash_balance_data
          EMPTY_BALANCE_HASH n ta la lr cid bh = Raise e) ∧
  (∀ e, signed_invariants n ta la lr mh sg sd → validate cid = Raise e →
        new_BalanceProofSignedState validate hash_balance_data
          EMPTY_BALANCE_HASH n ta la lr mh sg sd cid bh = Raise e).
Proof.
  split; [|split; [|split]].
  - intros Hbad.
    unfold new_BalanceProofUnsignedState, BalanceProofUnsignedState_post_init.
    cbn. field n; try done. field ta; try done. field la; try done.
    field lr; try done.
    do 5 (range_test; try done).
    destruct Hbad. eexists _, _, _, _. repeat split; try reflexivity; lia.
  - intros Hbad.
    unfold new_BalanceProofSignedState, BalanceProofSignedState_post_init.
    cbn. field n; try done. field ta; try done. field la; try done.
    field lr; try done. field mh; try done. field sg; try done.
    field sd; try done.
    do 7 (range_test; try done).
    destruct Hbad. split.
    + eexists _, _, _, _. repeat split; try reflexivity; lia.
    + eexists _, _, _. repeat split; try reflexivity; lia.
  - intros e (zn & zt & zl & r & -> & -> & -> & -> & Hn & Ht & Hr) Hv.
    unfold new_BalanceProofUnsignedState, BalanceProofUnsignedState_post_init.
    cbn. do 5 (range_test; try lia). by rewrite Hv.
  - intros e [(zn & zt & zl & r & -> & -> & -> & -> & Hn & Ht & Hr)
                (m & g & a & -> & -> & -> & Hm & Hg)] Hv.
    unfold new_BalanceProofSignedState, BalanceProofSignedState_post_init.
    cbn. do 7 (range_test; try lia). by rewrite Hv.
Qed.

(** X7. [__post_init__] changes nothing on an object it has accepted:
    running it again on a constructed balance proof returns the same
    object. *)
Theorem post_init_idempotent n ta la lr mh sg sd cid bh :
  (∀ bp,
     new_BalanceProofUnsignedState validate hash_balance_data EMPTY_BALANCE_HASH
       n ta la lr cid bh = Ok bp →
     BalanceProofUnsignedState_post_init CanonicalIdentifier validate
       hash_balance_data bp = Ok bp) ∧
  (∀ bp,
     new_BalanceProofSignedState validate hash_balance_data EMPTY_BALANCE_HASH
       n ta la lr mh sg sd cid bh = Ok bp →
     BalanceProofSignedState_post_init CanonicalIdentifier validate
       hash_balance_data bp = Ok bp).
Proof.
  split; intros bp H.
  - apply new_unsigned_inv in H as (Hinv & Hv & digest & Hd & ->).
    pose proof (new_unsigned_ok _ _ _ _ _ (Some digest) Hinv Hv) as Hok.
    by rewrite Hd in Hok.
  - apply new_signed_inv in H as (Hinv & Hv & digest & Hd & ->).
    pose proof (new_signed_ok _ _ _ _ _ _ _ _ (Some digest) Hinv Hv) as Hok.
    by rewrite Hd in Hok.
Qed.

(** X8. A signed balance proof that is constructed carries a valid unsigned
    one: from the same nonce, amounts, locksroot and identifier the unsigned
    constructor returns too, with the same balance_hash. *)
Theorem signed_carries_unsigned n ta la lr mh sg sd cid bh bh' sbp :
  new_BalanceProofSignedState validate hash_balance_data EMPTY_BALANCE_HASH
    n ta la lr mh sg sd cid bh = Ok sbp →
  ∃ ubp,
    new_BalanceProofUnsignedState validate hash_balance_data EMPTY_BALANCE_HASH
      n ta la lr cid bh' = Ok ubp ∧
    u_balance_hash ubp = s_balance_hash sbp ∧
    u_nonce ubp = s_nonce sbp ∧
    u_transferred_amount ubp = s_transferred_amount sbp ∧
    u_locked_amount ubp = s_locked_amount sbp ∧
    u_locksroot ubp = s_locksroot sbp.
Proof.
  intros H. apply new_signed_inv in H as ([Hinv _] & Hv & digest & Hd & ->).
  eexists. split; [by rewrite new_unsigned_ok, Hd|]. done.
Qed.

End Facts.

(** The properties above at concrete arguments: the scenario of the
    specification (nonce 5, transferred_amount 100, locksroot of 32 zero
    bytes) and variations of it. *)

Lemma balance_hash_recomputed_witness :
  new_BalanceProofUnsignedState validate_ok toy_hash PyNone
    (PyInt 5) (PyInt 100) (PyInt 0) (PyBytes zero32) tt (Some (PyStr "forged"))
  = Ok (mkUnsigned (PyInt 5) (PyInt 100) (PyInt 0) (PyBytes zero32) tt (PyInt 732))
  ∧ toy_hash (PyInt 100) (PyInt 0) (PyBytes zero32)
    = Ok (u_balance_hash
            (mkUnsigned (PyInt 5) (PyInt 100) (PyInt 0) (PyBytes zero32) tt
                        (PyInt 732))).
Proof.
  split; [reflexivity|].
  apply (proj1 (balance_hash_recomputed unit validate_ok toy_hash PyNone
                  (PyInt 5) (PyInt 100) (PyInt 0) (PyBytes zero32)
                  PyNone PyNone PyNone tt (Some (PyStr "forged")))).
  reflexivity.
Defined.

Lemma malformed_fields_rejected_witness :
  is_ValueError (new_BalanceProofUnsignedState validate_ok toy_hash PyNone
                   (PyInt 0) (PyInt 100) (PyInt 0) (PyBytes zero32) tt None)
  ∧ is_ValueError (new_BalanceProofSignedState validate_ok toy_hash PyNone
                     (PyInt 5) (PyInt 100) (PyInt 0) (PyBytes zero32)
                     (PyBytes zero32) (PyBytes (replicate 64 Byte.x00))
                     (PyBytes (replicate 20 Byte.x00)) tt None).
Proof.
  split.
  - apply (proj1 (malformed_fields_rejected unit validate_ok toy_hash PyNone
                    (PyInt 0) (PyInt 100) (PyInt 0) (PyBytes zero32)
                    PyNone PyNone PyNone tt None)).
    left. reflexivity.
  - apply (proj2 (malformed_fields_rejected unit validate_ok toy_hash PyNone
                    (PyInt 5) (PyInt 100) (PyInt 0) (PyBytes zero32)
                    (PyBytes zero32) (PyBytes (replicate 64 Byte.x00))
                    (PyBytes (replicate 20 Byte.x00)) tt None)).
    do 4 right. left. eexists. split; [reflexivity|]. simpl. lia.
Defined.

Lemma uint256_hash_returns_in_range : hash_returns_in_range uint256_hash.
Proof.
  intros t l r Ht Hl _. unfold uint256_hash.
  assert ((0 <=? t) && (t <=? UINT256_MAX) && (0 <=? l) && (l <=? UINT256_MAX)
          = true) as ->; [|by eexists].
  rewrite !andb_true_iff, !Z.leb_le. lia.
Qed.

Lemma unsigned_construction_succeeds_witness :
  ∃ bp, new_BalanceProofUnsignedState validate_ok uint256_hash PyNone
          (PyInt 5) (PyInt 100) (PyInt 0) (PyBytes zero32) tt None = Ok bp ∧
        uint256_hash (PyInt 100) (PyInt 0) (PyBytes zero32)
        = Ok (u_balance_hash bp).
Proof.
  apply (unsigned_construction_succeeds unit validate_ok uint256_hash PyNone
           5 100 0 zero32 tt None);
    first [exact uint256_hash_returns_in_range
          | unfold UINT64_MAX, UINT256_MAX; lia | reflexivity].
Defined.



Lemma signed_carries_unsigned_witness :
  ∃ ubp,
    new_BalanceProofUnsignedState validate_ok toy_hash PyNone
      (PyInt 5) (PyInt 100) (PyInt 0) (PyBytes zero32) tt None = Ok ubp ∧
    u_balance_hash ubp = PyInt 732 ∧
    u_nonce ubp = PyInt 5 ∧
    u_transferred_amount ubp = PyInt 100 ∧
    u_locked_amount ubp = PyInt 0 ∧
    u_locksroot ubp = PyBytes zero32.
Proof.
  apply (signed_carries_unsigned unit validate_ok toy_hash PyNone
           (PyInt 5) (PyInt 100) (PyInt 0) (PyBytes zero32)
           (PyBytes zero32) (PyBytes (replicate 65 Byte.x00))
           (PyBytes (replicate 20 Byte.x00)) tt (Some (PyStr "forged")) None
           (mkSigned (PyInt 5) (PyInt 100) (PyInt 0) (PyBytes zero32)
              (PyBytes zero32) (PyBytes (replicate 65 Byte.x00))
              (PyBytes (replicate 20 Byte.x00)) tt (PyInt 732))).
  reflexivity.
Defined.

End BalanceProofFacts.

(** ** The state manager *)

Module StateMachineFacts.
Import StateMachine Scenario.

Section Facts.

Variable StateData : Type.
Variable StateChange : Type.
Variable Event : Type.

Abbreviation heap := (gmap loc StateData).
Abbreviation Reducer := (reducer StateData StateChange Event).
Abbreviation Manager := (StateManager StateData StateChange Event).
Abbreviation Value := (value Event loc).

Implicit Types (h : heap) (s : option loc) (R : Reducer) (self : Manager).
Implicit Types (v : Value) (c : StateChange) (scs : list StateChange).

(** *** The checks on a reducer result *)

Lemma for_each_events {Ref} (es : list Event) :
  for_each typecheck_Event (VEvent (Ref:=Ref) <$> es) = Ok tt.
Proof. induction es as [|e es IH]; [done|]. cbn. exact IH. Qed.

Lemma check_iteration_well_typed (l : loc) (es : list Event) :
  check_iteration (VTransitionResult (VState l) (event_list es))
  = Ok (l, event_list es).
Proof.
  unfold check_iteration, event_list. cbn.
  by rewrite (for_each_events (Ref:=loc) es).
Qed.

Lemma for_each_Event_raises {Ref} (es : list (value Event Ref)) x :
  x ∈ es → (∀ e, x ≠ VEvent e) → is_error (for_each typecheck_Event es).
Proof.
  intros Hin Hx. induction es as [|y es IH]; [by apply elem_of_nil in Hin|].
  apply elem_of_cons in Hin as [<-|Hin].
  - destruct x as [| |e| |]; cbn; try by eexists. by destruct (Hx e).
  - cbn. destruct (typecheck_Event y) as [[]|e]; cbn; [by apply IH|by eexists].
Qed.

Lemma check_iteration_inv {Ref} (v : value Event Ref) l evs :
  check_iteration v = Ok (l, evs) → v = VTransitionResult (VState l) evs.
Proof.
  unfold check_iteration. destruct v as [| | | |n e]; try done. cbn.
  destruct (py_iter e) as [es|]; [|done]. cbn.
  destruct (for_each typecheck_Event es) as [[]|]; [|done]. cbn.
  destruct n; try done. cbn. by intros [= -> ->].
Qed.

Lemma check_iteration_bad v : bad_result v → is_error (check_iteration v).
Proof.
  intros [v' Hv|n e Hn|n es x Hin Hx]; unfold check_iteration.
  - destruct v' as [| | | |n e]; cbn; try by eexists. by destruct (Hv n e).
  - cbn. destruct (py_iter e) as [es|]; [|by eexists]. cbn.
    destruct (for_each typecheck_Event es) as [[]|]; [|by eexists]. cbn.
    destruct n as [|l| | |]; cbn; try by eexists. by destruct (Hn l).
  - cbn. destruct (for_each_Event_raises es x Hin Hx) as [e ->]. by eexists.
Qed.

(** *** The loop *)

(** One turn of the loop, by what the reducer did. *)
Lemma dispatch_loop_step R c rest s evs h h1 v l ev :
  R h s c = (h1, Ok v) → check_iteration v = Ok (l, ev) →
  dispatch_loop R (c :: rest) s evs h
  = dispatch_loop R rest (Some l) (evs ++ [ev]) h1.
Proof.
  intros HR Hc. cbn [dispatch_loop]. rewrite HR.
  unfold mbind, result_bind. by rewrite Hc.
Qed.

Lemma dispatch_loop_step_rejected R c rest s evs h h1 v e :
  R h s c = (h1, Ok v) → check_iteration v = Raise e →
  dispatch_loop R (c :: rest) s evs h = (h1, Raise e).
Proof.
  intros HR Hc. cbn [dispatch_loop]. rewrite HR.
  unfold mbind, result_bind. by rewrite Hc.
Qed.

Lemma dispatch_loop_step_raised R c rest s evs h h1 e :
  R h s c = (h1, Raise e) →
  dispatch_loop R (c :: rest) s evs h = (h1, Raise e).
Proof. intros HR. cbn [dispatch_loop]. by rewrite HR. Qed.

(** Over a prefix on which the reducer keeps to its contract, the loop
    advances the way the sequential computation does. *)
Lemma dispatch_loop_prefix R pre rest h s h1 s1 Es evs :
  sequential_run R h s pre h1 s1 Es →
  dispatch_loop R (pre ++ rest) s evs h
  = dispatch_loop R rest s1 (evs ++ (event_list <$> Es)) h1.
Proof.
  intros Hrun. revert evs.
  induction Hrun as [h s|h s c cs h1 s1 E1 h' s' Es HR _ IH]; intros evs.
  - by rewrite app_nil_r.
  - rewrite <- app_comm_cons.
    rewrite (dispatch_loop_step _ _ _ _ _ _ _ _ _ _ HR
               (check_iteration_well_typed s1 E1)).
    rewrite IH, fmap_cons. by rewrite <- app_assoc.
Qed.

Lemma dispatch_loop_sequential_run R scs h s h' s' Es :
  sequential_run R h s scs h' s' Es →
  dispatch_loop R scs s [] h = (h', Ok (s', event_list <$> Es)).
Proof.
  intros Hrun.
  by rewrite <- (app_nil_r scs), (dispatch_loop_prefix _ _ _ _ _ _ _ _ _ Hrun).
Qed.

Lemma sequential_run_length R scs h s h' s' Es :
  sequential_run R h s scs h' s' Es → length Es = length scs.
Proof. induction 1; cbn; congruence. Qed.

Lemma sequential_run_final_state R scs h s h' s' Es :
  sequential_run R h s scs h' s' Es → scs ≠ [] → is_Some s'.
Proof.
  induction 1 as [|h s c cs h1 s1 E1 h' s' Es HR Hrun IH]; [done|].
  intros _. destruct cs; [|by apply IH].
  inversion Hrun; subst. by eexists.
Qed.

(** C2. [dispatch] folds a non-empty batch through the reducer from left to
    right.  When the sequential computation from a copy of the current state
    gives, change after change, a new state and a list of events, ending in
    state S with the lists Es, then [dispatch] returns S together with the
    lists Es, one per state change and in the order of the batch, and the
    current state after the call is S. *)
Theorem dispatch_folds_batch self scs h h0 s0 h' s' Es :
  scs ≠ [] →
  deepcopy h (current_state self) = (h0, s0) →
  sequential_run (state_transition self) h0 s0 scs h' s' Es →
  ∃ S self',
    s' = Some S ∧
    dispatch self scs h = (h', self', Ok (S, event_list <$> Es)) ∧
    current_state self' = Some S ∧
    state_transition self' = state_transition self ∧
    length (event_list <$> Es) = length scs.
Proof.
  intros Hne Hcopy Hrun.
  destruct (sequential_run_final_state _ _ _ _ _ _ _ Hrun Hne) as [S ->].
  exists S, (set_current_state self (Some S)). split; [done|].
  split; [|split; [done|split; [done|]]].
  - unfold dispatch. destruct scs as [|c cs]; [done|].
    rewrite Hcopy. by rewrite (dispatch_loop_sequential_run _ _ _ _ _ _ _ Hrun).
  - rewrite length_fmap. by eapply sequential_run_length.
Qed.

(** The batch of two changes, as the specification words it. *)
Lemma dispatch_two_changes self c1 c2 h h0 s0 h1 S1 E1 h2 S2 E2 :
  deepcopy h (current_state self) = (h0, s0) →
  state_transition self h0 s0 c1
    = (h1, Ok (VTransitionResult (VState S1) (event_list E1))) →
  state_transition self h1 (Some S1) c2
    = (h2, Ok (VTransitionResult (VState S2) (event_list E2))) →
  dispatch self [c1; c2] h
    = (h2, set_current_state self (Some S2), Ok (S2, [event_list E1; event_list E2])).
Proof.
  intros Hcopy H1 H2. unfold dispatch. rewrite Hcopy.
  rewrite (dispatch_loop_sequential_run _ _ _ _ h2 (Some S2) [E1; E2]); [done|].
  eapply run_step; [exact H1|]. eapply run_step; [exact H2|]. constructor.
Qed.

(** C3. [dispatch] with an empty list of state changes raises a ValueError;
    the manager, its current state and the store are as before the call. *)
Theorem dispatch_empty_batch self h :
  dispatch self [] h
  = (h, self, Raise (ValueError "dispatch called with an empty state_changes list")).
Proof. reflexivity. Qed.

(** A reducer that raises stops the batch in the same way, with its own
    exception. *)
Lemma reducer_exception_propagates self pre c post h h0 s0 h1 s1 Es h2 e :
  deepcopy h (current_state self) = (h0, s0) →
  sequential_run (state_transition self) h0 s0 pre h1 s1 Es →
  state_transition self h1 s1 c = (h2, Raise e) →
  dispatch self (pre ++ c :: post) h = (h2, self, Raise e).
Proof.
  intros Hcopy Hrun HR.
  unfold dispatch. destruct (pre ++ c :: post)%list as [|c0 l0] eqn:Hl.
  { by destruct pre. }
  rewrite <- Hl, Hcopy, (dispatch_loop_prefix _ _ _ _ _ _ _ _ _ Hrun).
  by rewrite (dispatch_loop_step_raised _ _ _ _ _ _ _ _ HR).
Qed.

(** C6. The result of every reducer call is checked.  After any number of
    changes handled within the contract, a reducer result that is not a
    TransitionResult, or whose new_state is not a State (None included), or
    one of whose events is not an Event, makes [dispatch] raise: the
    remaining changes are not applied and the manager is left as it was. *)
Theorem bad_result_aborts self pre c post h h0 s0 h1 s1 Es h2 v :
  deepcopy h (current_state self) = (h0, s0) →
  sequential_run (state_transition self) h0 s0 pre h1 s1 Es →
  state_transition self h1 s1 c = (h2, Ok v) →
  bad_result v →
  ∃ e, dispatch self (pre ++ c :: post) h = (h2, self, Raise e).
Proof.
  intros Hcopy Hrun HR Hbad.
  destruct (check_iteration_bad v Hbad) as [e He]. exists e.
  unfold dispatch. destruct (pre ++ c :: post)%list as [|c0 l0] eqn:Hl.
  { by destruct pre. }
  rewrite <- Hl, Hcopy, (dispatch_loop_prefix _ _ _ _ _ _ _ _ _ Hrun).
  by rewrite (dispatch_loop_step_rejected _ _ _ _ _ _ _ _ _ HR He).
Qed.

(** *** The copy and the frame of a call *)

(** The copy leaves the objects of the store as they are, is none of them,
    and holds what the original holds. *)
Lemma deepcopy_frame h s h0 s0 l :
  deepcopy h s = (h0, s0) → is_Some (h !! l) →
  h0 !! l = h !! l ∧ s0 ≠ Some l.
Proof.
  unfold deepcopy. intros Hcopy [d Hl].
  destruct s as [l0|]; [|by injection Hcopy as <- <-].
  destruct (h !! l0) as [d0|] eqn:Hl0; injection Hcopy as <- <-.
  - assert (fresh (dom h) ≠ l) as Hne.
    { intros <-. apply (is_fresh (dom h)), elem_of_dom. by eexists. }
    split; [by rewrite lookup_insert_ne|congruence].
  - split; [done|]. intros [= ->]. congruence.
Qed.

Lemma deepcopy_view h s h0 s0 :
  deepcopy h s = (h0, s0) → view h0 s0 = view h s.
Proof.
  unfold deepcopy. destruct s as [l|]; [|by intros [= <- <-]].
  destruct (h !! l) as [d|] eqn:Hl; intros [= <- <-]; [|done].
  cbn. by rewrite lookup_insert_eq, Hl.
Qed.

(** With a reducer that writes to its own state only, the loop changes no
    object other than its working state. *)
Lemma dispatch_loop_frame R :
  writes_own_state_only R →
  ∀ scs s evs h h' r l,
    dispatch_loop R scs s evs h = (h', r) →
    is_Some (h !! l) → s ≠ Some l → h' !! l = h !! l.
Proof.
  intros HR scs.
  induction scs as [|c rest IH]; intros s evs h h' r l Hloop Hl Hs.
  - by injection Hloop as <- _.
  - destruct (R h s c) as [h1 it] eqn:Hstep.
    destruct (HR _ _ _ _ _ Hstep) as [Hframe Hnew].
    specialize (Hframe l Hl Hs).
    destruct it as [v|e].
    + destruct (check_iteration v) as [[l1 ev]|e] eqn:Hc.
      * rewrite (dispatch_loop_step _ _ _ _ _ _ _ _ _ _ Hstep Hc) in Hloop.
        rewrite <- Hframe. eapply IH; [exact Hloop|by rewrite Hframe|].
        intros [= ->]. apply check_iteration_inv in Hc as ->.
        destruct (Hnew l ev eq_refl) as [->|Hnone]; [done|].
        rewrite Hnone in Hl. by destruct Hl.
      * rewrite (dispatch_loop_step_rejected _ _ _ _ _ _ _ _ _ Hstep Hc) in Hloop.
        by injection Hloop as <- _.
    + rewrite (dispatch_loop_step_raised _ _ _ _ _ _ _ _ Hstep) in Hloop.
      by injection Hloop as <- _.
Qed.

(** Every object that is in the store before a call of [dispatch] is
    unchanged after it, whether the call returns or raises. *)
Lemma dispatch_frame self scs h h' self' r l :
  writes_own_state_only (state_transition self) →
  dispatch self scs h = (h', self', r) →
  is_Some (h !! l) → h' !! l = h !! l.
Proof.
  intros HR Hd Hl. unfold dispatch in Hd.
  destruct scs as [|c rest]; [by injection Hd as <- _ _|].
  destruct (deepcopy h (current_state self)) as [h0 s0] eqn:Hcopy.
  destruct (deepcopy_frame _ _ _ _ l Hcopy Hl) as [Hh0 Hs0].
  destruct (dispatch_loop _ (c :: rest) s0 [] h0) as [h1 r1] eqn:Hloop.
  assert (h1 !! l = h !! l) as Hh1.
  { rewrite <- Hh0. eapply dispatch_loop_frame; [exact HR|exact Hloop| |done].
    by rewrite Hh0. }
  destruct r1 as [[[S|] evs]|e]; by injection Hd as <- _ _.
Qed.


(** C9. The current state is assigned after the loop only.  When [dispatch]
    raises, be it the reducer that raised or a check on its result that
    failed, at any point of the batch, the manager still refers to the state
    it referred to before the call; and with a reducer that reaches State
    instances through its argument only, that state has its content of
    before the call. *)
Theorem failed_dispatch_keeps_current_state self scs h h' self' e :
  dispatch self scs h = (h', self', Raise e) →
  self' = self ∧
  (writes_own_state_only (state_transition self) →
   ∀ l, current_state self = Some l → is_Some (h !! l) → h' !! l = h !! l).
Proof.
  intros Hd. split.
  - unfold dispatch in Hd. destruct scs as [|c rest]; [by injection Hd as _ <- _|].
    destruct (deepcopy h (current_state self)) as [h0 s0].
    destruct (dispatch_loop _ (c :: rest) s0 [] h0) as [h1 [[[S|] evs]|e1]];
      by injection Hd.
  - intros HR l _ Hl. by eapply dispatch_frame.
Qed.

(** *** Two runs *)

(** The checks do not depend on how a State is represented. *)
Lemma for_each_Event_map {A B} (f : A → B) (es : list (value Event A)) :
  for_each typecheck_Event (List.map (value_map f) es)
  = for_each typecheck_Event es.
Proof.
  induction es as [|x es IH]; [done|]. cbn. rewrite IH. by destruct x.
Qed.

Lemma py_iter_map {A B} (f : A → B) (v : value Event A) :
  py_iter (value_map f v)
  = match py_iter v with
    | Ok es => Ok (List.map (value_map f) es)
    | Raise e => Raise e
    end.
Proof.
  destruct v as [d| | | |]; try done. destruct d as [| |b|str]; try done; cbn.
  - f_equal. induction b as [|x b IH]; [done|]. cbn. by f_equal.
  - f_equal. induction (String.list_ascii_of_string str) as [|x b IH]; [done|].
    cbn. by f_equal.
Qed.

Lemma check_iteration_map {A B} (f : A → B) (v : value Event A) :
  check_iteration (value_map f v)
  = match check_iteration v with
    | Ok (l, evs) => Ok (f l, value_map f evs)
    | Raise e => Raise e
    end.
Proof.
  unfold check_iteration. destruct v as [| | | |n ev]; try done.
  cbn [value_map typecheck_TransitionResult mbind result_bind].
  rewrite py_iter_map. destruct (py_iter ev) as [es|]; [|done].
  cbn [mbind result_bind]. rewrite for_each_Event_map.
  destruct (for_each typecheck_Event es) as [[]|]; [|done].
  by destruct n.
Qed.

(** The events of a checked result hold no State: they read the same in
    every store. *)
Lemma checked_events_closed {A B} (f g : A → B) (v : value Event A) l evs :
  check_iteration v = Ok (l, evs) → value_map f evs = value_map g evs.
Proof.
  unfold check_iteration. destruct v as [| | | |n ev]; try done. cbn.
  destruct (py_iter ev) as [es|] eqn:Hit; [|done]. cbn.
  destruct (for_each typecheck_Event es) as [[]|] eqn:Hes; [|done]. cbn.
  destruct n; try done. cbn. intros [= _ <-].
  destruct ev as [d| | |vs|]; try done. cbn in Hit. injection Hit as ->.
  cbn. f_equal. induction es as [|x es IH]; [done|].
  cbn in Hes. destruct x; try done. cbn. f_equal. by apply IH.
Qed.

(** Two runs of the loop with a deterministic reducer, from states of equal
    content, end alike: with the same exception, or with final states of
    equal content and event lists that read the same. *)
Lemma dispatch_loop_two_runs R :
  deterministic R →
  ∀ scs h1 s1 evs1 h2 s2 evs2,
    view h1 s1 = view h2 s2 → same_events StateData evs1 evs2 →
    match dispatch_loop R scs s1 evs1 h1, dispatch_loop R scs s2 evs2 h2 with
    | (h1', Ok (s1', evs1')), (h2', Ok (s2', evs2')) =>
        view h1' s1' = view h2' s2' ∧ same_events StateData evs1' evs2'
    | (_, Raise e1), (_, Raise e2) => e1 = e2
    | _, _ => False
    end.
Proof.
  intros Hdet scs.
  induction scs as [|c rest IH]; intros h1 s1 evs1 h2 s2 evs2 Hview Hevs.
  { done. }
  specialize (Hdet h1 s1 h2 s2 c Hview). unfold observe_outcome in Hdet.
  destruct (R h1 s1 c) as [k1 it1] eqn:HR1.
  destruct (R h2 s2 c) as [k2 it2] eqn:HR2.
  destruct it1 as [v1|e1], it2 as [v2|e2]; cbn in Hdet; try done.
  - injection Hdet as Hobs.
    pose proof (check_iteration_map (λ l, k1 !! l) v1) as Hc1.
    pose proof (check_iteration_map (λ l, k2 !! l) v2) as Hc2.
    unfold observe in Hobs. rewrite Hobs in Hc1. rewrite Hc2 in Hc1.
    destruct (check_iteration v1) as [[l1 ev1]|x1] eqn:Hck1;
      destruct (check_iteration v2) as [[l2 ev2]|x2] eqn:Hck2; try done.
    + rewrite (dispatch_loop_step _ _ _ _ _ _ _ _ _ _ HR1 Hck1).
      rewrite (dispatch_loop_step _ _ _ _ _ _ _ _ _ _ HR2 Hck2).
      injection Hc1 as Hl Hev. apply IH; [cbn; by rewrite Hl|].
      intros ha hb. rewrite !map_app. f_equal; [apply Hevs|]. cbn. f_equal.
      unfold observe.
      rewrite (checked_events_closed (λ l, ha !! l) (λ l, k1 !! l) _ _ _ Hck1).
      rewrite (checked_events_closed (λ l, hb !! l) (λ l, k2 !! l) _ _ _ Hck2).
      done.
    + rewrite (dispatch_loop_step_rejected _ _ _ _ _ _ _ _ _ HR1 Hck1).
      rewrite (dispatch_loop_step_rejected _ _ _ _ _ _ _ _ _ HR2 Hck2).
      congruence.
  - rewrite (dispatch_loop_step_raised _ _ _ _ _ _ _ _ HR1).
    rewrite (dispatch_loop_step_raised _ _ _ _ _ _ _ _ HR2).
    congruence.
Qed.

(** C7. Two managers with the same deterministic reducer and current states
    of equal content, each dispatching the same batch (in its own store, or
    one after the other in one store), end alike: both raise the same
    exception, or both return final states of equal content and equal
    sequences of event lists, and then their current states have equal
    content. *)
Theorem dispatch_two_runs R self1 self2 scs h1 h2 h1' self1' r1 h2' self2' r2 :
  deterministic R →
  state_transition self1 = R → state_transition self2 = R →
  view h1 (current_state self1) = view h2 (current_state self2) →
  dispatch self1 scs h1 = (h1', self1', r1) →
  dispatch self2 scs h2 = (h2', self2', r2) →
  observe_result h1' r1 = observe_result h2' r2 ∧
  (∀ x, r1 = Ok x →
        view h1' (current_state self1') = view h2' (current_state self2')).
Proof.
  intros Hdet HR1 HR2 Hview Hd1 Hd2. unfold dispatch in Hd1, Hd2.
  destruct scs as [|c rest].
  { injection Hd1 as <- <- <-. injection Hd2 as <- <- <-. done. }
  destruct (deepcopy h1 (current_state self1)) as [k1 s1] eqn:Hcopy1.
  destruct (deepcopy h2 (current_state self2)) as [k2 s2] eqn:Hcopy2.
  assert (view k1 s1 = view k2 s2) as Hview0.
  { by rewrite (deepcopy_view _ _ _ _ Hcopy1), (deepcopy_view _ _ _ _ Hcopy2). }
  pose proof (dispatch_loop_two_runs R Hdet (c :: rest) k1 s1 [] k2 s2 []
                Hview0 (λ _ _, eq_refl)) as Hloop.
  rewrite HR1 in Hd1. rewrite HR2 in Hd2.
  destruct (dispatch_loop R (c :: rest) s1 [] k1) as [j1 [[[S1|] evs1]|e1]];
    destruct (dispatch_loop R (c :: rest) s2 [] k2) as [j2 [[[S2|] evs2]|e2]];
    try done; try (by destruct Hloop);
    injection Hd1 as <- <- <-; injection Hd2 as <- <- <-.
  - destruct Hloop as [Hv Hevs]. cbn in Hv. injection Hv as Hv.
    split; [|intros _ _; cbn; by rewrite Hv].
    cbn. by rewrite Hv, (Hevs j1 j2).
  - done.
  - split; [by rewrite Hloop|done].
Qed.

(** *** What a call returns, what it raises, and batches in sequence *)

Lemma for_each_Event_ok {Ref} (es : list (value Event Ref)) :
  for_each typecheck_Event es = Ok tt → Forall (λ x, ∃ e, x = VEvent e) es.
Proof.
  induction es as [|x es IH]; [by constructor|].
  cbn. destruct x as [| |e| |]; try done. cbn. intros H.
  constructor; [by exists e|by apply IH].
Qed.

Lemma check_iteration_events {Ref} (v : value Event Ref) l ev :
  check_iteration v = Ok (l, ev) →
  ∃ es, py_iter ev = Ok es ∧ Forall (λ x, ∃ e, x = VEvent e) es.
Proof.
  unfold check_iteration. destruct v as [| | | |n e0]; try done. cbn.
  destruct (py_iter e0) as [es|] eqn:Hit; [|done]. cbn.
  destruct (for_each typecheck_Event es) as [[]|] eqn:Hes; [|done]. cbn.
  destruct n; try done. cbn. intros [= _ <-].
  exists es. split; [done|]. by apply for_each_Event_ok.
Qed.

Lemma events_closed {A B} (f g : A → B) (ev : value Event A) es :
  py_iter ev = Ok es → Forall (λ x, ∃ e, x = VEvent e) es →
  value_map f ev = value_map g ev.
Proof.
  intros Hit Hes. destruct ev as [d| | |vs|]; try done.
  cbn in Hit. injection Hit as ->. cbn. f_equal.
  induction Hes as [|x es [e ->] _ IH]; [done|]. cbn. by f_equal.
Qed.



(** A loop that runs to its end has added one checked entry per change. *)
Lemma dispatch_loop_returns R scs :
  ∀ s evs h h' s' evs',
    dispatch_loop R scs s evs h = (h', Ok (s', evs')) →
    ∃ new, evs' = (evs ++ new)%list ∧ length new = length scs ∧
           Forall (λ ev, ∃ es, py_iter ev = Ok es ∧
                               Forall (λ x, ∃ e, x = VEvent e) es) new ∧
           (scs ≠ [] → is_Some s').
Proof.
  induction scs as [|c rest IH]; intros s evs h h' s' evs' Hloop.
  - injection Hloop as <- <- <-. exists []. by rewrite app_nil_r.
  - destruct (R h s c) as [h1 [v|e]] eqn:Hstep.
    + destruct (check_iteration v) as [[l ev]|e] eqn:Hc.
      * rewrite (dispatch_loop_step _ _ _ _ _ _ _ _ _ _ Hstep Hc) in Hloop.
        destruct (IH _ _ _ _ _ _ Hloop) as (new & -> & Hlen & Hall & Hs).
        exists (ev :: new). rewrite <- app_assoc. split; [done|].
        split; [cbn; by rewrite Hlen|].
        split; [constructor; [by eapply check_iteration_events|done]|].
        intros _. destruct rest; [|by apply Hs].
        injection Hloop as _ <- _. by eexists.
      * by rewrite (dispatch_loop_step_rejected _ _ _ _ _ _ _ _ _ Hstep Hc)
          in Hloop.
    + by rewrite (dispatch_loop_step_raised _ _ _ _ _ _ _ _ Hstep) in Hloop.
Qed.


(** The loop over two batches in a row. *)
Lemma dispatch_loop_app R a b :
  ∀ s evs h,
    dispatch_loop R (a ++ b) s evs h
    = match dispatch_loop R a s evs h with
      | (h1, Ok (s1, evs1)) => dispatch_loop R b s1 evs1 h1
      | (h1, Raise e) => (h1, Raise e)
      end.
Proof.
  induction a as [|c rest IH]; intros s evs h; [done|].
  rewrite <- app_comm_cons.
  destruct (R h s c) as [h1 [v|e]] eqn:Hstep.
  - destruct (check_iteration v) as [[l ev]|e] eqn:Hc.
    + rewrite !(dispatch_loop_step _ _ _ _ _ _ _ _ _ _ Hstep Hc). apply IH.
    + by rewrite !(dispatch_loop_step_rejected _ _ _ _ _ _ _ _ _ Hstep Hc).
  - by rewrite !(dispatch_loop_step_raised _ _ _ _ _ _ _ _ Hstep).
Qed.

(** The event lists collected before the loop are only handed on. *)
Lemma dispatch_loop_events R scs :
  ∀ s evs h,
    dispatch_loop R scs s evs h
    = match dispatch_loop R scs s [] h with
      | (h', Ok (s', new)) => (h', Ok (s', (evs ++ new)%list))
      | (h', Raise e) => (h', Raise e)
      end.
Proof.
  induction scs as [|c rest IH]; intros s evs h.
  - cbn. by rewrite app_nil_r.
  - destruct (R h s c) as [h1 [v|e]] eqn:Hstep.
    + destruct (check_iteration v) as [[l ev]|e] eqn:Hc.
      * rewrite !(dispatch_loop_step _ _ _ _ _ _ _ _ _ _ Hstep Hc).
        rewrite (IH _ (evs ++ [ev])%list), (IH _ ([] ++ [ev])%list).
        destruct (dispatch_loop R rest (Some l) [] h1) as [h' [[s' new]|e]];
          [|done].
        by rewrite <- app_assoc.
      * by rewrite !(dispatch_loop_step_rejected _ _ _ _ _ _ _ _ _ Hstep Hc).
    + by rewrite !(dispatch_loop_step_raised _ _ _ _ _ _ _ _ Hstep).
Qed.

(** X9. When [dispatch] returns, the batch was not empty, the manager has
    kept its reducer and has the returned state as its current state, and
    the list returned has one entry per state change, each an iterable
    holding events only: whatever the reducer is. *)
Theorem dispatch_returns_inv self scs h h' self' S evs :
  dispatch self scs h = (h', self', Ok (S, evs)) →
  scs ≠ [] ∧
  self' = set_current_state self (Some S) ∧
  length evs = length scs ∧
  Forall (λ ev, ∃ es, py_iter ev = Ok es ∧
                      Forall (λ x, ∃ e : Event, x = VEvent e) es) evs.
Proof.
  unfold dispatch. intros Hd. destruct scs as [|c rest]; [done|].
  destruct (deepcopy h (current_state self)) as [h0 s0].
  destruct (dispatch_loop _ (c :: rest) s0 [] h0) as [h1 [[[S1|] evs1]|e]]
    eqn:Hloop; try done.
  injection Hd as <- <- <- <-.
  destruct (dispatch_loop_returns _ _ _ _ _ _ _ _ Hloop)
    as (new & -> & Hlen & Hall & _).
  done.
Qed.


(** X11. A batch that fails, fails in the same way however it is continued:
    the state changes after the failing one never reach the reducer. *)
Theorem failed_batch_extension self scs post h h' self' e :
  scs ≠ [] →
  dispatch self scs h = (h', self', Raise e) →
  dispatch self (scs ++ post) h = (h', self', Raise e).
Proof.
  unfold dispatch. intros Hne Hd.
  destruct scs as [|c rest]; [done|]. rewrite <- app_comm_cons.
  destruct (deepcopy h (current_state self)) as [h0 s0].
  rewrite (app_comm_cons rest post c), dispatch_loop_app.
  destruct (dispatch_loop _ (c :: rest) s0 [] h0) as [h1 [[[S1|] evs1]|e1]]
    eqn:Hloop; try done.
  destruct (dispatch_loop_returns _ _ _ _ _ _ _ _ Hloop)
    as (_ & _ & _ & _ & Hs).
  by destruct (Hs ltac:(done)).
Qed.

(** X12. With a deterministic reducer, dispatching a batch and then a second
    one comes to the same as dispatching the two as one batch: the single
    call returns too, its final state has the content of the final state of
    the second call, and its event lists read as those of the first call
    followed by those of the second. *)
Theorem dispatch_batches_compose R self a b h h1 self1 S1 E1 h2 self2 S2 E2 :
  deterministic R → state_transition self = R →
  dispatch self a h = (h1, self1, Ok (S1, E1)) →
  dispatch self1 b h1 = (h2, self2, Ok (S2, E2)) →
  ∃ h' self' S E,
    dispatch self (a ++ b) h = (h', self', Ok (S, E)) ∧
    h' !! S = h2 !! S2 ∧
    List.map (observe h') E = List.map (observe h2) (E1 ++ E2).
Proof.
  unfold dispatch. intros Hdet HR Ha Hb.
  destruct a as [|c rest]; [done|]. rewrite <- app_comm_cons.
  destruct (deepcopy h (current_state self)) as [h0 s0].
  rewrite (app_comm_cons rest b c), dispatch_loop_app. rewrite HR in *.
  destruct (dispatch_loop R (c :: rest) s0 [] h0) as [k1 [[[T1|] F1]|e1]]
    eqn:Hloop1; try done.
  injection Ha as Ea1 Ea2 Ea3 Ea4. subst h1 self1 S1 E1.
  destruct (dispatch_loop_returns _ _ _ _ _ _ _ _ Hloop1)
    as (new1 & Hnew1 & _ & Hall1 & _).
  cbn [app] in Hnew1. subst F1.
  destruct b as [|c2 rest2]; [done|].
  cbn [set_current_state current_state state_transition] in Hb.
  rewrite HR in Hb.
  destruct (deepcopy k1 (Some T1)) as [k0 t0] eqn:Hcopy.
  destruct (dispatch_loop R (c2 :: rest2) t0 [] k0) as [k2 [[[T2|] F2]|e2]]
    eqn:Hloop2; try done.
  injection Hb as Eb1 Eb2 Eb3 Eb4. subst h2 self2 S2 E2.
  pose proof (dispatch_loop_two_runs R Hdet (c2 :: rest2) k1 (Some T1) []
                k0 t0 [] (eq_sym (deepcopy_view _ _ _ _ Hcopy))
                (λ _ _, eq_refl)) as Htwo.
  rewrite Hloop2 in Htwo. rewrite dispatch_loop_events.
  destruct (dispatch_loop R (c2 :: rest2) (Some T1) [] k1)
    as [j [[[T|] F]|e]]; try done; destruct Htwo as [Hview Hevs];
    [|done].
  cbn in Hview. injection Hview as Hview.
  eexists _, _, _, _. split; [reflexivity|]. split; [done|].
  rewrite !map_app. f_equal; [|apply Hevs].
  clear Hloop1. induction Hall1 as [|ev evs (es & Hit & Hes) _ IH]; [done|].
  cbn. f_equal; [|exact IH]. by eapply events_closed.
Qed.

(** X22. With a deterministic reducer, when a first batch is dispatched and
    a second batch, which is not empty, then fails, the single call on the
    two as one batch raises the same exception.  But it leaves the manager
    on the state from before the first batch, where the two calls in a row
    leave it on the state the first batch produced: within one batch, a
    failure discards the changes already applied.  (For an empty second
    batch the second call raises, while the single call is the first call
    and returns.) *)
Theorem dispatch_batches_compose_failure
    R self a b h h1 self1 S1 E1 h2 self2 e :
  deterministic R → state_transition self = R →
  dispatch self a h = (h1, self1, Ok (S1, E1)) →
  dispatch self1 b h1 = (h2, self2, Raise e) →
  b ≠ [] →
  current_state self2 = Some S1 ∧
  ∃ h', dispatch self (a ++ b) h = (h', self, Raise e).
Proof.
  unfold dispatch. intros Hdet HR Ha Hb Hne.
  destruct a as [|c rest]; [done|]. rewrite <- app_comm_cons.
  destruct (deepcopy h (current_state self)) as [h0 s0].
  rewrite (app_comm_cons rest b c), dispatch_loop_app. rewrite HR in *.
  destruct (dispatch_loop R (c :: rest) s0 [] h0) as [k1 [[[T1|] F1]|e1]]
    eqn:Hloop1; try done.
  injection Ha as Ea1 Ea2 Ea3 Ea4. subst h1 self1 S1 E1.
  destruct b as [|c2 rest2]; [done|].
  cbn [set_current_state current_state state_transition] in Hb.
  rewrite HR in Hb.
  destruct (deepcopy k1 (Some T1)) as [k0 t0] eqn:Hcopy.
  pose proof (dispatch_loop_two_runs R Hdet (c2 :: rest2) k1 (Some T1) []
                k0 t0 [] (eq_sym (deepcopy_view _ _ _ _ Hcopy))
                (λ _ _, eq_refl)) as Htwo.
  rewrite dispatch_loop_events.
  destruct (dispatch_loop R (c2 :: rest2) t0 [] k0) as [k2 [[[T2|] F2]|e2]]
    eqn:Hloop2; try done.
  - destruct (dispatch_loop_returns _ _ _ _ _ _ _ _ Hloop2)
      as (_ & _ & _ & _ & Hs).
    by destruct (Hs ltac:(done)).
  - injection Hb as Eb1 Eb2 Eb3. subst h2 self2 e2. split; [done|].
    destruct (dispatch_loop R (c2 :: rest2) (Some T1) [] k1)
      as [j [[[T|] F]|e']]; try done. subst e'. by eexists.
Qed.

End Facts.

(** *** The counter *)

Lemma counter_writes_own_state_only : writes_own_state_only counter.
Proof.
  intros h s c h' r H. unfold counter in H.
  destruct s as [l0|]; [|injection H as <- <-; by split].
  destruct (h !! l0) as [n|] eqn:Hl0; [|injection H as <- <-; by split].
  destruct c; injection H as <- <-; split; try done.
  - intros l _ Hne. apply lookup_insert_ne. congruence.
  - intros l evs [= <- _]. by left.
Qed.

Lemma counter_deterministic : deterministic counter.
Proof.
  intros h1 s1 h2 s2 c Hview. unfold observe_outcome, counter.
  destruct s1 as [l1|], s2 as [l2|]; try done.
  cbn in Hview. injection Hview as Hview. rewrite <- Hview.
  destruct (h1 !! l1) as [n|]; [|done].
  destruct c; cbn; [|done..]. by rewrite !lookup_insert_eq.
Qed.

(** The properties above on the counter: the manager holds the counter at 0,
    the batch is two increments, possibly with a faulty change between
    them. *)

Lemma dispatch_folds_batch_witness :
  ∃ S self',
    Some 2%positive = Some S ∧
    dispatch manager0 [Tick; Tick] store0
      = (store2, self', Ok (S, event_list <$> [[]; []])) ∧
    current_state self' = Some S ∧
    state_transition self' = state_transition manager0 ∧
    length (event_list (Event:=Empty_set) <$> [[]; []]) = length [Tick; Tick].
Proof.
  apply (dispatch_folds_batch Z change Empty_set manager0 [Tick; Tick] store0
           (<[2%positive := 0]> store0) (Some 2%positive)).
  - done.
  - reflexivity.
  - apply (run_step counter _ _ Tick [Tick] store1 2%positive [] store2
             (Some 2%positive) [[]]); [reflexivity|].
    apply (run_step counter _ _ Tick [] store2 2%positive [] store2
             (Some 2%positive) []); [reflexivity|].
    apply run_done.
Defined.

Lemma bad_result_aborts_witness :
  ∃ e, dispatch manager0 ([Tick] ++ Junk :: [Tick]) store0
       = (store1, manager0, Raise e).
Proof.
  apply (bad_result_aborts Z change Empty_set manager0 [Tick] Junk [Tick] store0
           (<[2%positive := 0]> store0) (Some 2%positive)
           store1 (Some 2%positive) [[]] store1 (VData PyNone)).
  - reflexivity.
  - apply (run_step counter _ _ Tick [] store1 2%positive [] store1
             (Some 2%positive) []); [reflexivity|apply run_done].
  - reflexivity.
  - apply bad_not_transition_result. discriminate.
Defined.



Lemma failed_dispatch_keeps_current_state_witness :
  dispatch manager0 [Tick; Boom; Tick] store0
    = (store1, manager0, Raise (Exception "boom"))
  ∧ current_state manager0 = Some 1%positive
  ∧ store1 !! 1%positive = store0 !! 1%positive.
Proof.
  split; [reflexivity|]. split; [reflexivity|].
  destruct (failed_dispatch_keeps_current_state Z change Empty_set manager0
              [Tick; Boom; Tick] store0 store1 manager0 (Exception "boom")
              eq_refl) as [_ Hkept].
  apply Hkept.
  - exact counter_writes_own_state_only.
  - reflexivity.
  - by eexists.
Defined.

Lemma dispatch_two_runs_witness :
  observe_result store2 (Ok (2%positive, [VList []; VList []]))
  = observe_result (Event:=Empty_set) (<[7%positive := 2]> store0')
      (Ok (7%positive, [VList []; VList []]))
  ∧ view store2 (Some 2%positive) = view (<[7%positive := 2]> store0') (Some 7%positive).
Proof.
  pose proof (dispatch_two_runs Z change Empty_set counter manager0 manager0'
                [Tick; Tick] store0 store0'
                store2 (set_current_state manager0 (Some 2%positive))
                (Ok (2%positive, [VList []; VList []]))
                (<[7%positive := 2]> store0')
                (set_current_state manager0' (Some 7%positive))
                (Ok (7%positive, [VList []; VList []]))
                counter_deterministic eq_refl eq_refl eq_refl eq_refl eq_refl)
    as [Hres Hcur].
  split; [exact Hres|]. exact (Hcur _ eq_refl).
Defined.

Lemma dispatch_returns_inv_witness :
  [Tick; Tick] ≠ [] ∧
  set_current_state manager0 (Some 2%positive)
  = set_current_state manager0 (Some 2%positive) ∧
  length [VList (Event:=Empty_set) (Ref:=loc) []; VList []] = length [Tick; Tick] ∧
  Forall (λ ev, ∃ es, py_iter ev = Ok es ∧
                      Forall (λ x, ∃ e : Empty_set, x = VEvent e) es)
         [VList (Ref:=loc) []; VList []].
Proof.
  apply (dispatch_returns_inv Z change Empty_set manager0 [Tick; Tick] store0
           store2 (set_current_state manager0 (Some 2%positive)) 2%positive
           [VList []; VList []]).
  reflexivity.
Defined.


Lemma failed_batch_extension_witness :
  dispatch manager0 ([Tick; Boom] ++ [Tick; Tick]) store0
  = (store1, manager0, Raise (Exception "boom")).
Proof.
  apply (failed_batch_extension Z change Empty_set manager0 [Tick; Boom]
           [Tick; Tick] store0 store1 manager0 (Exception "boom"));
    [done|reflexivity].
Defined.

Lemma dispatch_batches_compose_witness :
  ∃ h' self' S E,
    dispatch manager0 ([Tick] ++ [Tick]) store0 = (h', self', Ok (S, E)) ∧
    h' !! S = <[3%positive := 2]> store1 !! 3%positive ∧
    List.map (observe h') E
    = List.map (observe (<[3%positive := 2]> store1))
        ([VList []] ++ [VList []]).
Proof.
  apply (dispatch_batches_compose Z change Empty_set counter manager0
           [Tick] [Tick] store0
           store1 (set_current_state manager0 (Some 2%positive)) 2%positive
           [VList []]
           (<[3%positive := 2]> store1)
           (set_current_state manager0 (Some 3%positive)) 3%positive
           [VList []]).
  - exact counter_deterministic.
  - reflexivity.
  - reflexivity.
  - reflexivity.
Defined.

Lemma dispatch_batches_compose_failure_witness :
  current_state (set_current_state manager0 (Some 2%positive)) = Some 2%positive ∧
  ∃ h', dispatch manager0 ([Tick] ++ [Boom]) store0
        = (h', manager0, Raise (Exception "boom")).
Proof.
  apply (dispatch_batches_compose_failure Z change Empty_set counter manager0
           [Tick] [Boom] store0
           store1 (set_current_state manager0 (Some 2%positive)) 2%positive
           [VList []]
           (<[3%positive := 1]> store1)
           (set_current_state manager0 (Some 2%positive))
           (Exception "boom")).
  - exact counter_deterministic.
  - reflexivity.
  - reflexivity.
  - reflexivity.
  - done.
Defined.

End StateMachineFacts.

(** ** Equality of reducer results *)

Module EqualityFacts.
Import StateMachine Equality Scenario.

Section Facts.

Context {StateData : Type} `{!EqDecision StateData}.
Context {Event : Type} `{!EqDecision Event}.

(** Induction on a value, with the elements of a list as sub-values. *)
Lemma value_nested_ind {Ref} (P : value Event Ref → Prop) :
  (∀ d, P (VData d)) → (∀ r, P (VState r)) → (∀ e, P (VEvent e)) →
  (∀ vs, Forall P vs → P (VList vs)) →
  (∀ n e, P n → P e → P (VTransitionResult n e)) →
  ∀ v, P v.
Proof.
  intros HD HS HE HL HT. fix IH 1. intros [d|r|e|vs|n e].
  - apply HD.
  - apply HS.
  - apply HE.
  - apply HL. induction vs as [|x vs IHvs]; constructor; [apply IH|exact IHvs].
  - apply HT; apply IH.
Qed.

(** Two values are equal for [==] exactly when they read the same from the
    store. *)
Lemma py_eq_observe (h : gmap loc StateData) (a b : value Event loc) :
  py_eq h a b = true ↔ observe h a = observe h b.
Proof.
  revert b. induction a as [d|r|e|vs IH|n e IHn IHe] using value_nested_ind;
    intros b.
  - destruct b; cbn; try done. rewrite bool_decide_eq_true.
    split; [by intros ->|by intros [= ->]].
  - destruct b; cbn; try done. rewrite bool_decide_eq_true.
    split; [by intros ->|by intros [= ->]].
  - destruct b; cbn; try done. rewrite bool_decide_eq_true.
    split; [by intros ->|by intros [= ->]].
  - destruct b as [| | |ws|]; try done. unfold observe. cbn [py_eq value_map].
    revert ws. induction IH as [|x vs Hx _ IHvs]; intros [|y ws]; try done.
    cbn [List.map]. rewrite andb_true_iff, Hx, IHvs. unfold observe.
    split; [by intros [-> [= ->]]|]. by intros [= -> ->].
  - destruct b as [| | | |n' e']; try done. cbn.
    rewrite andb_true_iff, IHn, IHe. unfold observe.
    split; [by intros [-> ->]|]. by intros [= -> ->].
Qed.

(** X13. [TransitionResult.__eq__] holds exactly when [other] is a
    TransitionResult that reads the same from the store: a new_state of the
    same content, whichever object holds it, and equal events.  It is
    therefore symmetric and transitive, and [__ne__] is its negation. *)
Theorem TransitionResult_eq_spec (h : gmap loc StateData)
    (n1 e1 n2 e2 n3 e3 other : value Event loc) :
  (TransitionResult_eq h n1 e1 other = true
   ↔ observe (Event:=Event) h (VTransitionResult n1 e1) = observe h other) ∧
  TransitionResult_eq h n1 e1 (VTransitionResult n1 e1) = true ∧
  TransitionResult_eq h n1 e1 (VTransitionResult n2 e2)
  = TransitionResult_eq h n2 e2 (VTransitionResult n1 e1) ∧
  (TransitionResult_eq h n1 e1 (VTransitionResult n2 e2) = true →
   TransitionResult_eq h n2 e2 (VTransitionResult n3 e3) = true →
   TransitionResult_eq h n1 e1 (VTransitionResult n3 e3) = true) ∧
  TransitionResult_ne h n1 e1 other = negb (TransitionResult_eq h n1 e1 other).
Proof.
  assert (∀ n e o, TransitionResult_eq h n e o = true
                   ↔ observe (Event:=Event) h (VTransitionResult n e)
                     = observe h o) as Hspec.
  { intros n e o. apply (py_eq_observe h (VTransitionResult n e) o). }
  split; [apply Hspec|]. split; [by apply Hspec|]. split; [|split; [|done]].
  - apply eq_true_iff_eq. rewrite !Hspec. split; congruence.
  - rewrite !Hspec. congruence.
Qed.

End Facts.

Lemma TransitionResult_eq_spec_witness :
  TransitionResult_eq (Event:=Empty_set) store0' (VState 5%positive) (VList [])
    (VTransitionResult (VState 6%positive) (VList [])) = false
  ∧ TransitionResult_eq (Event:=Empty_set) (<[6%positive := 0]> store0')
      (VState 5%positive) (VList [])
      (VTransitionResult (VState 6%positive) (VList [])) = true.
Proof.
  split; [reflexivity|].
  apply (proj1 (TransitionResult_eq_spec (<[6%positive := 0]> store0')
                  (VState 5%positive) (VList []) (VData PyNone) (VData PyNone)
                  (VData PyNone) (VData PyNone)
                  (VTransitionResult (VState 6%positive) (VList [])))).
  reflexivity.
Defined.

End EqualityFacts.

(** ** SuccessOrError *)

Module SuccessOrErrorFacts.
Import SuccessOrError.

Lemma append_assoc (a b c : string) : (a +:+ b) +:+ c = a +:+ b +:+ c.
Proof.
  induction a as [|x a IH]; [done|].
  change (String x ((a +:+ b) +:+ c) = String x (a +:+ b +:+ c)).
  by rewrite IH.
Qed.

Lemma append_empty (a b : string) : a +:+ b = "" → a = "" ∧ b = "".
Proof. by destruct a. Qed.

Lemma join_cons sep x rest :
  rest ≠ [] → join sep (x :: rest) = x +:+ sep +:+ join sep rest.
Proof. by destruct rest. Qed.

Lemma join_app sep a b :
  a ≠ [] → b ≠ [] → join sep (a ++ b) = join sep a +:+ sep +:+ join sep b.
Proof.
  intros Ha Hb. induction a as [|x a IH]; [done|].
  destruct a as [|y a].
  - cbn [app]. by rewrite join_cons.
  - rewrite <- app_comm_cons, !join_cons by done.
    rewrite IH by done. by rewrite !append_assoc.
Qed.

(** X14. The message of a SuccessOrError is empty when it holds no error
    message, and also when it holds the empty message alone: [ok] cannot be
    read off [as_error_message].  With two messages or more the separator is
    there, and the message is not empty. *)
Theorem as_error_message_empty (self : SuccessOrError) :
  as_error_message self = ""
  ↔ ok self = true ∨ (fail self = true ∧ error_messages self = [""]).
Proof.
  destruct self as [msgs]. unfold as_error_message, ok, fail. cbn.
  destruct msgs as [|x [|y rest]].
  - split; [by left|done].
  - cbn. split; [intros ->; by right|]. by intros [?|[_ [= ->]]].
  - rewrite join_cons by done. split.
    + intros H. apply append_empty in H as [_ H]. done.
    + by intros [?|[_ ?]].
Qed.

(** X15. The messages are joined in order: the message for the errors of
    two non-empty collections one after the other is the message of the
    first, the separator, and the message of the second. *)
Theorem as_error_message_app (a b : list string) :
  a ≠ [] → b ≠ [] →
  as_error_message (new (a ++ b))
  = as_error_message (new a) +:+ " / " +:+ as_error_message (new b).
Proof. intros Ha Hb. by apply join_app. Qed.

Lemma as_error_message_app_witness :
  as_error_message (new (["a"] ++ ["b"; "c"])) = "a / b / c".
Proof.
  rewrite (as_error_message_app ["a"] ["b"; "c"]); [reflexivity|done|done].
Defined.

End SuccessOrErrorFacts.

(** ** raiden/network/utils.py *)

Module NetworkUtilsFacts.
Import NetworkUtils NetworkScenario.

Section Ports.

Variable net_connections : nat → list sconn.

(** X16. The port a [next()] yields is the first candidate, counting up
    from where the generator stands, that no connection of the table read
    for it uses: every candidate before it was in use when it was tried.
    One table is read per candidate, and the generator goes on after the
    port it yielded. *)
Theorem next_port_sound fuel calls port p calls' port' :
  next_port net_connections fuel calls port = Some (p, calls', port') →
  port ≤ p ∧ port' = p + 1 ∧
  calls' = (calls + Z.to_nat (p - port) + 1)%nat ∧
  in_use_when_tried net_connections calls port p = false ∧
  ∀ q, port ≤ q < p → in_use_when_tried net_connections calls port q = true.
Proof.
  unfold in_use_when_tried. revert calls port.
  induction fuel as [|fuel IH]; intros calls port; [done|]. cbn.
  destruct (existsb (uses_port port) (net_connections calls)) eqn:Hused.
  - intros H. destruct (IH _ _ H) as (Hle & -> & -> & Hfree & Hbusy).
    assert (Z.to_nat (p - port) = S (Z.to_nat (p - (port + 1)))) as -> by lia.
    split; [lia|]. split; [done|]. split; [lia|].
    split; [by rewrite <- Nat.add_succ_comm|].
    intros q Hq. destruct (decide (q = port)) as [->|Hne].
    + by rewrite Z.sub_diag, Nat.add_0_r.
    + assert (Z.to_nat (q - port) = S (Z.to_nat (q - (port + 1)))) as ->
        by lia.
      rewrite <- Nat.add_succ_comm. apply Hbusy. lia.
  - intros [= <- <- <-]. rewrite Z.sub_diag, Nat.add_0_r.
    split; [lia|]. split; [done|]. split; [cbn; lia|]. split; [done|].
    intros q Hq. lia.
Qed.

(** X17. The ports drawn from the generator are strictly increasing: no
    port is yielded twice, and none below the starting port. *)
Theorem draw_ports_increasing fuel n calls port ps :
  draw_ports net_connections fuel n calls port = Some ps →
  length ps = n ∧ Forall (λ p, port ≤ p) ps ∧
  ∀ i j pi pj, (i < j)%nat → ps !! i = Some pi → ps !! j = Some pj → pi < pj.
Proof.
  revert calls port ps.
  induction n as [|n IH]; intros calls port ps.
  { intros [= <-]. split; [done|]. split; [constructor|]. by intros ? ? ? ? ?. }
  cbn. destruct (next_port _ fuel calls port) as [[[p calls'] port']|] eqn:Hnext;
    [|done].
  destruct (draw_ports _ fuel n calls' port') as [qs|] eqn:Hdraw; [|done].
  intros [= <-].
  destruct (next_port_sound _ _ _ _ _ _ Hnext) as (Hle & -> & _).
  destruct (IH _ _ _ Hdraw) as (Hlen & Hall & Hinc).
  split; [cbn; by rewrite Hlen|]. split.
  - constructor; [done|]. eapply Forall_impl; [exact Hall|]. intros; cbn in *; lia.
  - intros [|i] [|j] pi pj Hij Hi Hj; try lia; cbn in Hi, Hj.
    + injection Hi as <-. rewrite Forall_forall in Hall.
      pose proof (Hall pj (list_elem_of_lookup_2 _ _ _ Hj)). cbn in *; lia.
    + eapply (Hinc i j); [lia|done|done].
Qed.

End Ports.

(** A table of [n] connections leaves one of any [n + 1] consecutive ports
    unused. *)
Lemma unused_port_exists (n : nat) :
  ∀ (table : list sconn) (port : Z),
    (length table ≤ n)%nat →
    ∃ q, port ≤ q ≤ port + Z.of_nat n ∧ existsb (uses_port q) table = false.
Proof.
  induction n as [|n IH]; intros table port Hlen.
  { destruct table; [|cbn in Hlen; lia]. exists port. split; [lia|done]. }
  destruct (existsb (uses_port port) table) eqn:Hused.
  2:{ exists port. split; [lia|done]. }
  set (rest := filter (λ c, uses_port port c = false) table).
  assert (length rest < length table)%nat as Hless.
  { apply existsb_exists in Hused as (c & Hc & Hu). subst rest.
    apply list_elem_of_In in Hc. clear -Hc Hu. induction table as [|x table IHt]; [by apply elem_of_nil in Hc|].
    rewrite filter_cons. cbn [length]. case_decide as Hx.
    - cbn [length]. apply elem_of_cons in Hc as [->|Hc]; [congruence|].
      specialize (IHt Hc). lia.
    - pose proof (length_filter (λ c, uses_port port c = false) table). lia. }
  destruct (IH rest (port + 1)) as (q & Hq & Hfree); [lia|].
  exists q. split; [lia|].
  apply not_true_iff_false. intros (c & Hc & Hu)%existsb_exists.
  apply not_true_iff_false in Hfree. apply Hfree, existsb_exists.
  exists c. split; [|done]. apply list_elem_of_In, list_elem_of_filter.
  split; [|by apply list_elem_of_In].
  unfold uses_port in *. destruct (laddr c) as [[a p]|]; [|done].
  apply Z.eqb_eq in Hu as ->. apply Z.eqb_neq. lia.
Qed.

(** While the table stays the same, the loop reaches an unused port it has
    the fuel for. *)
Lemma next_port_finds (table : list sconn) (q : Z) :
  existsb (uses_port q) table = false →
  ∀ fuel calls port,
    port ≤ q → (Z.to_nat (q - port) < fuel)%nat →
    is_Some (next_port (λ _, table) fuel calls port).
Proof.
  intros Hfree fuel. induction fuel as [|fuel IH]; intros calls port Hle Hfuel;
    [lia|].
  cbn. destruct (existsb (uses_port port) table) eqn:Hused; [|by eexists].
  assert (port < q) as Hlt
    by (destruct (decide (port = q)) as [->|]; [congruence|lia]).
  apply IH; lia.
Qed.

(** X18. While the connections do not change, a [next()] on the generator
    of [get_free_port(initial_port)] ends after at most as many candidates
    as there are connections, plus one, and yields the least port from
    [initial_port] on that no connection uses; the count starts at 27854
    when [initial_port] is None or 0.  Nothing bounds the port from above:
    it may exceed 65535. *)
Theorem get_free_port_static (table : list sconn) (initial_port : option Z)
    (calls : nat) :
  ∃ p calls',
    next_port (λ _, table) (S (length table)) calls (get_free_port initial_port)
    = Some (p, calls', p + 1) ∧
    start_port initial_port ≤ p ≤ start_port initial_port + Z.of_nat (length table) ∧
    existsb (uses_port p) table = false ∧
    ∀ q, start_port initial_port ≤ q < p → existsb (uses_port q) table = true.
Proof.
  unfold get_free_port. set (start := start_port initial_port).
  destruct (unused_port_exists (length table) table start (le_n _))
    as (q & Hq & Hfree).
  destruct (next_port_finds table q Hfree (S (length table)) calls start)
    as [[[p calls'] port'] Hnext]; [lia|lia|].
  destruct (next_port_sound _ _ _ _ _ _ _ Hnext) as (Hle & -> & _ & Hp & Hbusy).
  unfold in_use_when_tried in Hp, Hbusy.
  exists p, calls'. split; [done|].
  assert (p ≤ q) as Hpq.
  { destruct (decide (p ≤ q)) as [|Hgt]; [done|].
    rewrite Hbusy in Hfree by lia. done. }
  split; [lia|]. split; [done|]. exact Hbusy.
Qed.

Section Retries.

Variable float : Type.
Variable float_zero : float.
Variable float_add : float → float → float.
Variable float_div : float → Z → result float.
Variable request : nat → outcome float.

Lemma retry_loop_answered (els : list float) :
  ∀ (rest : nat) (durations : float) (w : world),
    answered request w els →
    retry_loop float_add request (length els + rest) durations w
    = retry_loop float_add request rest (fold_left float_add els durations)
        (mkWorld (requests_made w + length els) (sleeps w + length els)).
Proof.
  induction els as [|e els IH]; intros rest durations w Hans.
  { cbn. rewrite !Nat.add_0_r. by destruct w. }
  cbn [length Nat.add retry_loop].
  rewrite <- (Nat.add_0_r (requests_made w)), (Hans 0%nat e eq_refl).
  rewrite IH.
  - cbn. f_equal. f_equal; lia.
  - intros k x Hk. cbn. rewrite <- (Hans (S k) x Hk). f_equal. lia.
Qed.

(** X19. When each of the [samples] requests is answered without an error
    status, [return_after_retries] makes exactly [samples] requests, sleeps
    after each of them, and divides by [samples] the durations added up in
    the order of the requests starting from 0.0: it returns the url with the
    quotient (or raises what the division raises, which takes a number of
    samples too large for a float). *)
Theorem return_after_retries_answered (url : string) (els : list float) (w : world) :
  els ≠ [] → answered request w els →
  return_after_retries float_zero float_add float_div request url
    (Z.of_nat (length els)) w
  = (mkWorld (requests_made w + length els) (sleeps w + length els),
     match float_div (fold_left float_add els float_zero)
                     (Z.of_nat (length els)) with
     | Ok average => Ok (Some (url, average))
     | Raise e => Raise e
     end).
Proof.
  intros Hne Hans. unfold return_after_retries.
  rewrite Nat2Z.id, <- (Nat.add_0_r (length els)).
  rewrite (retry_loop_answered els 0 float_zero w Hans). cbn [retry_loop].
  rewrite Nat.add_0_r.
  destruct (Z.eqb_spec (Z.of_nat (length els)) 0) as [H0|].
  { destruct els; [done|cbn in H0; lia]. }
  by destruct (float_div _ _).
Qed.

(** X20. The first request that fails ends the call: after requests that
    were answered, a request that raises an OSError or RequestException, or
    is answered with an error status, makes [return_after_retries] return
    None, and any other exception comes out of it.  No request is made after
    that one, and no sleep. *)
Theorem return_after_retries_first_failure
    (url : string) (samples : Z) (els : list float) (w : world) :
  Z.of_nat (length els) < samples → answered request w els →
  let w' := mkWorld (requests_made w + length els + 1) (sleeps w + length els) in
  match request (requests_made w + length els)%nat with
  | Responded true _ => True
  | Responded false _ | Refused =>
      return_after_retries float_zero float_add float_div request url samples w
      = (w', Ok None)
  | Crashed e =>
      return_after_retries float_zero float_add float_div request url samples w
      = (w', Raise e)
  end.
Proof.
  intros Hlt Hans. cbn zeta. unfold return_after_retries.
  assert (Z.to_nat samples = (length els + S (Z.to_nat samples - length els - 1))%nat)
    as -> by lia.
  rewrite (retry_loop_answered els _ float_zero w Hans). cbn [retry_loop].
  cbn [requests_made sleeps].
  destruct (request (requests_made w + length els)%nat) as [[|] e| |e];
    try done; cbn; do 2 f_equal; lia.
Qed.

(** X21. With no sample asked for, no request is made and no sleep: with
    [samples = 0] the call ends in the division of 0.0 by zero, which raises;
    with a negative [samples] it ends in the division of 0.0 by [samples],
    and returns the url with the quotient when the division returns one, or
    raises what the division raises (an OverflowError, when [samples] is too
    large in magnitude for a float). *)
Theorem return_after_retries_no_sample (url : string) (samples : Z) (w : world) :
  samples ≤ 0 →
  return_after_retries float_zero float_add float_div request url samples w
  = (w, if samples =? 0
        then Raise (Exception "ZeroDivisionError: float division by zero")
        else match float_div float_zero samples with
             | Ok average => Ok (Some (url, average))
             | Raise e => Raise e
             end).
Proof.
  intros Hle. unfold return_after_retries.
  assert (Z.to_nat samples = 0%nat) as -> by lia. cbn [retry_loop].
  destruct (samples =? 0); [done|]. by destruct (float_div _ _).
Qed.

End Retries.

(** The properties above on a table with the ports 27854 and 27855 in use,
    and on two answered requests followed by a refused one. *)

Lemma next_port_sound_witness :
  27854 ≤ 27856 ∧ 27857 = 27856 + 1 ∧
  3%nat = (0 + Z.to_nat (27856 - 27854) + 1)%nat ∧
  in_use_when_tried changing_connections 0 27854 27856 = false ∧
  ∀ q, 27854 ≤ q < 27856 →
       in_use_when_tried changing_connections 0 27854 q = true.
Proof.
  apply (next_port_sound changing_connections 5 0 27854 27856 3 27857).
  reflexivity.
Defined.

Lemma draw_ports_increasing_witness :
  length [27856; 27857; 27858] = 3%nat ∧
  Forall (λ p, 27854 ≤ p) [27856; 27857; 27858] ∧
  ∀ i j pi pj, (i < j)%nat →
    [27856; 27857; 27858] !! i = Some pi →
    [27856; 27857; 27858] !! j = Some pj → pi < pj.
Proof.
  apply (draw_ports_increasing (λ _, busy_table) 5 3 0 27854).
  reflexivity.
Defined.

Lemma return_after_retries_answered_witness :
  return_after_retries 0 Z.add ms_div slow_then_refused "http://node" 2 world0
  = (mkWorld 2 2, Ok (Some ("http://node", 100))).
Proof.
  apply (return_after_retries_answered Z 0 Z.add ms_div slow_then_refused
           "http://node" [120; 80] world0); [done|].
  intros [|[|k]] e; cbn; intros [= <-] || done; reflexivity.
Defined.

Lemma return_after_retries_first_failure_witness :
  return_after_retries 0 Z.add ms_div slow_then_refused "http://node" 5 world0
  = (mkWorld 3 2, Ok None).
Proof.
  apply (return_after_retries_first_failure Z 0 Z.add ms_div slow_then_refused
           "http://node" 5 [120; 80] world0); [done|].
  intros [|[|k]] e; cbn; intros [= <-] || done; reflexivity.
Defined.

Lemma return_after_retries_no_sample_witness :
  return_after_retries 0 Z.add ms_div slow_then_refused "http://node" 0 world0
  = (world0, Raise (Exception "ZeroDivisionError: float division by zero"))
  ∧ return_after_retries 0 Z.add ms_div slow_then_refused "http://node" (-2) world0
    = (world0, Ok (Some ("http://node", 0)))
  ∧ return_after_retries 0 Z.add ms_div slow_then_refused "http://node"
      (- 2 ^ 1024) world0
    = (world0,
       Raise (Exception "OverflowError: int too large to convert to float")).
Proof.
  split; [|split].
  - apply (return_after_retries_no_sample Z 0 Z.add ms_div slow_then_refused
             "http://node" 0 world0). done.
  - apply (return_after_retries_no_sample Z 0 Z.add ms_div slow_then_refused
             "http://node" (-2) world0). done.
  - apply (return_after_retries_no_sample Z 0 Z.add ms_div slow_then_refused
             "http://node" (- 2 ^ 1024) world0). done.
Defined.

End NetworkUtilsFacts.
